(** * ChessCrypt: S-box generation by chess-piece walks (src/cc.py)

    A shallow embedding of the [ChessCrypt] class of [src/cc.py] and the
    properties of its move generators, its swap, its walk loop and its
    substitution.

    Modelling conventions.
    - Python integers are [Z]; [//] and [%] are [Z.div] and [Z.modulo]
      (both floor towards minus infinity, like Python), and raise
      [ZeroDivisionError] on a zero divisor.
    - The numpy array [self.sbox] is a list of rows, each a list of [Z].
      Indexing with an integer follows Python and numpy: an index [i] with
      [-len <= i < 0] addresses [i + len], anything outside [-len, len)
      raises [IndexError].
    - The cells are numpy integers; they are the values below
      [box_size * box_size] that [np.arange] wrote and no arithmetic is done
      on them, so the model takes them as [Z].
    - Exceptions are an error monad ([result]).
    - The global generator behind [np.random.randint] is a function
      [rand : nat -> Z -> Z] (number of the call, exclusive upper bound)
      together with the count of calls made so far, which [generate_sbox]
      threads through the loop. *)

From Stdlib Require Import ZArith Lia.
From stdpp Require Import base list list_numbers sorting.

Local Open Scope Z_scope.

(** ** Exceptions *)

Inductive exn : Type :=
  | IndexError
  | ZeroDivisionError
  | ValueError.

Inductive result (A : Type) : Type :=
  | Ok (a : A)
  | Raise (e : exn).

Arguments Ok {A} a.
Arguments Raise {A} e.

Definition bind {A B : Type} (m : result A) (k : A -> result B) : result B :=
  match m with
  | Ok a => k a
  | Raise e => Raise e
  end.

Notation "'let*' x ':=' m 'in' k" :=
  (bind m (fun x => k))
  (at level 10, x pattern, m at level 100, k at level 200).

(** [for _ in range(n): body], the loop variable unused. *)
Fixpoint repeat_m {S : Type} (n : nat) (body : S -> result S) (s : S) : result S :=
  match n with
  | O => Ok s
  | Datatypes.S n' => let* s' := body s in repeat_m n' body s'
  end.

(** [for x in l: body], threading the loop state. *)
Fixpoint for_each {A S : Type} (l : list A) (body : S -> A -> result S) (s : S)
  : result S :=
  match l with
  | [] => Ok s
  | x :: l' => let* s' := body s x in for_each l' body s'
  end.

(** ** Python and numpy primitives *)

Definition py_mod (a b : Z) : result Z :=
  if b =? 0 then Raise ZeroDivisionError else Ok (a mod b).

Definition py_floordiv (a b : Z) : result Z :=
  if b =? 0 then Raise ZeroDivisionError else Ok (a / b).

(** Integer index into a sequence of length [len]. *)
Definition norm_index (i : Z) (len : nat) : result nat :=
  if (0 <=? i) && (i <? Z.of_nat len) then Ok (Z.to_nat i)
  else if (- Z.of_nat len <=? i) && (i <? 0) then Ok (Z.to_nat (i + Z.of_nat len))
  else Raise IndexError.

(** [l[i]] *)
Definition getitem {A : Type} (l : list A) (i : Z) : result A :=
  let* k := norm_index i (length l) in
  match l !! k with
  | Some x => Ok x
  | None => Raise IndexError
  end.

(** [a[r][c]] on a two-dimensional array. *)
Definition getitem2 (a : list (list Z)) (r c : Z) : result Z :=
  let* row := getitem a r in
  getitem row c.

(** [a[r][c] = v]: [a[r]] is a view of row [r], the store writes through. *)
Definition setitem2 (a : list (list Z)) (r c v : Z) : result (list (list Z)) :=
  let* i := norm_index r (length a) in
  match a !! i with
  | Some row =>
      let* j := norm_index c (length row) in
      Ok (<[i := <[j := v]> row]> a)
  | None => Raise IndexError
  end.

(** [np.arange(n * n).reshape(n, n)]; a negative dimension is refused. *)
Definition arange_square (n : Z) : result (list (list Z)) :=
  if n <? 0 then Raise ValueError
  else Ok ((fun r => (fun c => r * n + c) <$> seqZ 0 n) <$> seqZ 0 n).

(** [a.flatten()]: row-major order. *)
Definition flatten (a : list (list Z)) : list Z := concat a.

(** [np.random.randint(high)]: the [k]-th draw of the generator. *)
Definition randint (rand : nat -> Z -> Z) (k : nat) (high : Z) : result (Z * nat) :=
  if high <=? 0 then Raise ValueError else Ok (rand k high, Datatypes.S k).

(** ** The class *)

Definition position : Type := Z * Z.

Record ChessCrypt : Type := mkChessCrypt {
  box_size : Z;
  sbox : list (list Z);
  king_pos : position;
  knight_pos : position;
  bishop_pos : position
}.

Definition __init__ (box_size : Z) : result ChessCrypt :=
  let* a := arange_square box_size in
  Ok {| box_size := box_size;
        sbox := a;
        king_pos := (0, 0);
        knight_pos := (box_size / 2, box_size / 2);
        bishop_pos := (box_size - 1, box_size - 1) |}.

(** [[(x % n, y % n) for x, y in moves]] *)
Fixpoint wrap_moves (n : Z) (moves : list position) : result (list position) :=
  match moves with
  | [] => Ok []
  | (x, y) :: rest =>
      let* x' := py_mod x n in
      let* y' := py_mod y n in
      let* rest' := wrap_moves n rest in
      Ok ((x', y') :: rest')
  end.

Definition knight_offsets (pos : position) : list position :=
  [ (pos.1 + 2, pos.2 + 1); (pos.1 + 2, pos.2 - 1);
    (pos.1 - 2, pos.2 + 1); (pos.1 - 2, pos.2 - 1);
    (pos.1 + 1, pos.2 + 2); (pos.1 + 1, pos.2 - 2);
    (pos.1 - 1, pos.2 + 2); (pos.1 - 1, pos.2 - 2) ].

Definition _get_knight_moves (self : ChessCrypt) (pos : position)
  : result (list position) :=
  wrap_moves (box_size self) (knight_offsets pos).

(** Body of the inner loop of [_get_king_moves]. *)
Definition king_inner (n : Z) (pos : position) (dx : Z)
  (moves : list position) (dy : Z) : result (list position) :=
  if (dx =? 0) && (dy =? 0) then Ok moves
  else
    let* x := py_mod (pos.1 + dx) n in
    let* y := py_mod (pos.2 + dy) n in
    Ok (moves ++ [(x, y)]).

Definition _get_king_moves (self : ChessCrypt) (pos : position)
  : result (list position) :=
  for_each [-1; 0; 1]
    (fun moves dx => for_each [-1; 0; 1] (king_inner (box_size self) pos dx) moves)
    [].

(** Body of the inner loop of [_get_bishop_moves]; the loop state is
    [(curr_x, curr_y, moves)]. *)
Definition bishop_inner (n : Z) (direction : position)
  (st : position * list position) : result (position * list position) :=
  let '((curr_x, curr_y), moves) := st in
  let* curr_x' := py_mod (curr_x + direction.1) n in
  let* curr_y' := py_mod (curr_y + direction.2) n in
  Ok ((curr_x', curr_y'), moves ++ [(curr_x', curr_y')]).

Definition bishop_directions : list position :=
  [ (1, 1); (1, -1); (-1, 1); (-1, -1) ].

Definition _get_bishop_moves (self : ChessCrypt) (pos : position)
  : result (list position) :=
  for_each bishop_directions
    (fun moves direction =>
       let* st := repeat_m (Z.to_nat (box_size self))
                    (bishop_inner (box_size self) direction) (pos, moves) in
       Ok st.2)
    [].

Definition set_sbox (self : ChessCrypt) (a : list (list Z)) : ChessCrypt :=
  {| box_size := box_size self;
     sbox := a;
     king_pos := king_pos self;
     knight_pos := knight_pos self;
     bishop_pos := bishop_pos self |}.

(** The right-hand side tuple is evaluated first (the cell of [pos2], then
    the cell of [pos1]); the two stores follow, left to right. *)
Definition _swap_positions (self : ChessCrypt) (pos1 pos2 : position)
  : result ChessCrypt :=
  let* v2 := getitem2 (sbox self) pos2.1 pos2.2 in
  let* v1 := getitem2 (sbox self) pos1.1 pos1.2 in
  let* a1 := setitem2 (sbox self) pos1.1 pos1.2 v2 in
  let* a2 := setitem2 a1 pos2.1 pos2.2 v1 in
  Ok (set_sbox self a2).

(** The three walkers, in the order the loop of [generate_sbox] moves them. *)
Inductive piece : Type :=
  | Knight
  | King
  | Bishop.

Definition get_moves (p : piece) (self : ChessCrypt) (pos : position)
  : result (list position) :=
  match p with
  | Knight => _get_knight_moves self pos
  | King => _get_king_moves self pos
  | Bishop => _get_bishop_moves self pos
  end.

Definition get_pos (p : piece) (self : ChessCrypt) : position :=
  match p with
  | Knight => knight_pos self
  | King => king_pos self
  | Bishop => bishop_pos self
  end.

Definition set_pos (p : piece) (self : ChessCrypt) (pos : position) : ChessCrypt :=
  match p with
  | Knight =>
      {| box_size := box_size self; sbox := sbox self; king_pos := king_pos self;
         knight_pos := pos; bishop_pos := bishop_pos self |}
  | King =>
      {| box_size := box_size self; sbox := sbox self; king_pos := pos;
         knight_pos := knight_pos self; bishop_pos := bishop_pos self |}
  | Bishop =>
      {| box_size := box_size self; sbox := sbox self; king_pos := king_pos self;
         knight_pos := knight_pos self; bishop_pos := pos |}
  end.

(** The object together with the number of draws made so far. *)
Definition world : Type := ChessCrypt * nat.

(** One "Move <piece>" block of the loop body:
    [moves = self._get_<piece>_moves(self.<piece>_pos)],
    [new_pos = moves[np.random.randint(len(moves))]],
    [self._swap_positions(self.<piece>_pos, new_pos)],
    [self.<piece>_pos = new_pos]. *)
Definition move_piece (rand : nat -> Z -> Z) (p : piece) (w : world) : result world :=
  let '(self, k) := w in
  let* moves := get_moves p self (get_pos p self) in
  let* (i, k') := randint rand k (Z.of_nat (length moves)) in
  let* new_pos := getitem moves i in
  let* self' := _swap_positions self (get_pos p self) new_pos in
  Ok (set_pos p self' new_pos, k').

(** The loop body: knight, then king, then bishop. *)
Definition iteration (rand : nat -> Z -> Z) (w : world) : result world :=
  let* w1 := move_piece rand Knight w in
  let* w2 := move_piece rand King w1 in
  move_piece rand Bishop w2.

(** [generate_sbox] mutates the object and returns [self.sbox]; the model
    returns the mutated object (whose [sbox] is the returned array) and the
    advanced draw count. [range(iterations)] is empty for [iterations <= 0]. *)
Definition generate_sbox (rand : nat -> Z -> Z) (self : ChessCrypt)
  (iterations : Z) (k : nat) : result world :=
  repeat_m (Z.to_nat iterations) (iteration rand) (self, k).

(** The same loop, recording the world after every swap. *)
Definition logged (step : world -> result world) (st : world * list world)
  : result (world * list world) :=
  let* w' := step st.1 in
  Ok (w', st.2 ++ [w']).

Definition iteration_logged (rand : nat -> Z -> Z) (st : world * list world)
  : result (world * list world) :=
  let* st1 := logged (move_piece rand Knight) st in
  let* st2 := logged (move_piece rand King) st1 in
  logged (move_piece rand Bishop) st2.

Definition generate_sbox_logged (rand : nat -> Z -> Z) (self : ChessCrypt)
  (iterations : Z) (k : nat) : result (world * list world) :=
  repeat_m (Z.to_nat iterations) (iteration_logged rand) ((self, k), []).

Definition substitute (self : ChessCrypt) (input_byte : Z) : result Z :=
  let* row := py_floordiv input_byte (box_size self) in
  let* col := py_mod input_byte (box_size self) in
  getitem2 (sbox self) row col.

(** ** Specification-side definitions *)

(** Board Geometry of the specification:
    [((value % side_length) + side_length) % side_length], once with the
    floored remainder of Python and once with a truncated remainder. *)
Definition wrap (value side_length : Z) : Z :=
  ((value mod side_length) + side_length) mod side_length.

Definition wrap_trunc (value side_length : Z) : Z :=
  Z.rem (Z.rem value side_length + side_length) side_length.

Definition wrap_pos (n : Z) (p : position) : position := (wrap p.1 n, wrap p.2 n).

Definition in_board (n : Z) (p : position) : Prop :=
  (0 <= p.1 < n) /\ (0 <= p.2 < n).

(** The offsets of the king in the order of the two nested loops. *)
Definition king_offsets (pos : position) : list position :=
  [ (pos.1 + -1, pos.2 + -1); (pos.1 + -1, pos.2 + 0); (pos.1 + -1, pos.2 + 1);
    (pos.1 + 0, pos.2 + -1); (pos.1 + 0, pos.2 + 1);
    (pos.1 + 1, pos.2 + -1); (pos.1 + 1, pos.2 + 0); (pos.1 + 1, pos.2 + 1) ].

(** Cumulative diagonal walk: every step wraps the previous wrapped point
    plus the direction. *)
Fixpoint cumulative_walk (n : Z) (d : position) (p : position) (steps : nat)
  : list position :=
  match steps with
  | O => []
  | Datatypes.S k =>
      let p' := wrap_pos n (p.1 + d.1, p.2 + d.2) in
      p' :: cumulative_walk n d p' k
  end.

(** Independent diagonal walk: step [k] is computed from the starting
    position as [(start + k * direction) mod side_length]. *)
Definition independent_walk (n : Z) (d : position) (p : position) (steps : nat)
  : list position :=
  (fun k => ((p.1 + k * d.1) mod n, (p.2 + k * d.2) mod n)) <$> seqZ 1 (Z.of_nat steps).

Definition cumulative_bishop_moves (n : Z) (pos : position) : list position :=
  concat ((fun d => cumulative_walk n d pos (Z.to_nat n)) <$> bishop_directions).

Definition independent_bishop_moves (n : Z) (pos : position) : list position :=
  concat ((fun d => independent_walk n d pos (Z.to_nat n)) <$> bishop_directions).

(** Where the cursor of the inner bishop loop stands after [steps] steps. *)
Fixpoint walk_end (n : Z) (d : position) (p : position) (steps : nat) : position :=
  match steps with
  | O => p
  | Datatypes.S k => walk_end n d (wrap_pos n (p.1 + d.1, p.2 + d.2)) k
  end.

(** The table [np.arange(n * n).reshape(n, n)] of a fresh object. *)
Definition identity_table (n : Z) : list (list Z) :=
  (fun r => (fun c => r * n + c) <$> seqZ 0 n) <$> seqZ 0 n.

(** The object [ChessCrypt(n)] right after construction. *)
Definition initial (n : Z) : ChessCrypt :=
  {| box_size := n;
     sbox := identity_table n;
     king_pos := (0, 0);
     knight_pos := (n / 2, n / 2);
     bishop_pos := (n - 1, n - 1) |}.

(** Row-major offset of a cell. *)
Definition offset (n : Z) (p : position) : nat := Z.to_nat (p.1 * n + p.2).

(** Shape of the array: [n] rows of [n] cells. *)
Definition square (n : Z) (a : list (list Z)) : Prop :=
  length a = Z.to_nat n /\ Forall (fun row => length row = Z.to_nat n) a.

(** The generator honours its contract: a draw below a positive bound lies
    in [[0, bound)]. *)
Definition rand_valid (rand : nat -> Z -> Z) : Prop :=
  forall (k : nat) (high : Z), 0 < high -> 0 <= rand k high < high.

(** State of an object built by [__init__] and moved only by the loop. *)
Definition walk_inv (n : Z) (self : ChessCrypt) : Prop :=
  box_size self = n /\ square n (sbox self) /\
  in_board n (king_pos self) /\ in_board n (knight_pos self) /\
  in_board n (bishop_pos self) /\
  flatten (sbox self) ≡ₚ seqZ 0 (n * n).

(** ** Diagnostics *)

(** [np.unique(a)]: the sorted distinct values of [a]. *)
Definition np_unique (l : list Z) : list Z := merge_sort Z.le (remove_dups l).

(** [np.min(a)] and [np.max(a)]; a reduction over no element is refused. *)
Definition np_min (l : list Z) : result Z :=
  match l with
  | [] => Raise ValueError
  | x :: l' => Ok (foldl Z.min x l')
  end.

Definition np_max (l : list Z) : result Z :=
  match l with
  | [] => Raise ValueError
  | x :: l' => Ok (foldl Z.max x l')
  end.

(** The integer entries of the dictionary [get_sbox_stats] returns. The two
    further entries, [mean_value] and [std_dev], are floating-point numbers
    and are left out; they are computed after the entries kept here, and
    numpy raises nothing for the mean or the deviation of a non-empty array,
    so the model raises where the code does. *)
Record sbox_stats : Type := mk_sbox_stats {
  is_bijective : bool;
  min_value : Z;
  max_value : Z
}.

Definition get_sbox_stats (self : ChessCrypt) : result sbox_stats :=
  let flat_sbox := flatten (sbox self) in
  let is_bijective := Nat.eqb (length (np_unique flat_sbox)) (length flat_sbox) in
  let* min_value := np_min flat_sbox in
  let* max_value := np_max flat_sbox in
  Ok {| is_bijective := is_bijective;
        min_value := min_value;
        max_value := max_value |}.

(** The non-negative index a Python index in [[-n, n)] stands for. *)
Definition py_norm (n i : Z) : Z := if i <? 0 then i + n else i.

Definition py_norm_pos (n : Z) (p : position) : position :=
  (py_norm n p.1, py_norm n p.2).

(** Index accepted by a sequence of length [n]. *)
Definition index_ok (n i : Z) : Prop := - n <= i < n.

(** Two objects that agree on the side length and on the three cursors. *)
Definition same_cursors (s t : ChessCrypt) : Prop :=
  box_size s = box_size t /\ forall q, get_pos q s = get_pos q t.

(** An object whose table is [n] by [n] and whose cursors are on the board,
    whatever the table holds. *)
Definition board_inv (n : Z) (self : ChessCrypt) : Prop :=
  box_size self = n /\ square n (sbox self) /\
  in_board n (king_pos self) /\ in_board n (knight_pos self) /\
  in_board n (bishop_pos self).

(** ** Lists as flat arrays *)

Lemma concat_lookup {A : Type} (n : nat) (a : list (list A)) (i j : nat) :
  Forall (fun row => length row = n) a ->
  (j < n)%nat ->
  concat a !! (i * n + j)%nat = a !! i ≫= (.!! j).
Proof.
  intros Ha Hj. revert i.
  induction Ha as [|row a' Hrow Ha' IH]; intros i.
  - by rewrite !lookup_nil.
  - destruct i as [|i']; simpl.
    + rewrite lookup_app_l by lia. done.
    + replace (n + i' * n + j)%nat with (length row + (i' * n + j))%nat by lia.
      rewrite lookup_app_r by lia.
      replace (length row + (i' * n + j) - length row)%nat
        with (i' * n + j)%nat by lia.
      apply IH.
Qed.

Lemma concat_insert {A : Type} (n : nat) (a : list (list A)) (i j : nat) (v : A)
  (row : list A) :
  Forall (fun row => length row = n) a ->
  a !! i = Some row ->
  (j < n)%nat ->
  concat (<[i := <[j := v]> row]> a) = <[(i * n + j)%nat := v]> (concat a).
Proof.
  intros Ha. revert i.
  induction Ha as [|row0 a' Hrow Ha' IH]; intros i Hi Hj; [done|].
  destruct i as [|i']; simpl in *.
  - injection Hi as ->. rewrite insert_app_l by lia. done.
  - rewrite (IH _ Hi Hj).
    replace (n + i' * n + j)%nat with (length row0 + (i' * n + j))%nat by lia.
    by rewrite insert_app_r.
Qed.

Lemma insert_head_Permutation {A : Type} (l : list A) (j : nat) (x b : A) :
  l !! j = Some b -> b :: <[j := x]> l ≡ₚ x :: l.
Proof.
  revert j. induction l as [|y l' IH]; intros j Hj; [done|].
  destruct j as [|j']; simpl in *.
  - injection Hj as ->. apply perm_swap.
  - rewrite (perm_swap y b), (IH _ Hj). apply perm_swap.
Qed.

(** Exchanging two cells of a list permutes it. *)
Lemma swap_Permutation {A : Type} (l : list A) (i j : nat) (x y : A) :
  l !! i = Some x -> l !! j = Some y ->
  <[j := x]> (<[i := y]> l) ≡ₚ l.
Proof.
  revert i j. induction l as [|z l' IH]; intros i j Hi Hj; [done|].
  destruct i as [|i'], j as [|j']; simpl in *.
  - by simplify_eq.
  - injection Hi as ->. by apply insert_head_Permutation.
  - injection Hj as ->. by apply insert_head_Permutation.
  - by rewrite (IH _ _ Hi Hj).
Qed.

(** ** Indexing *)

Lemma norm_index_nonneg (i : Z) (len : nat) :
  0 <= i < Z.of_nat len -> norm_index i len = Ok (Z.to_nat i).
Proof.
  intros H. unfold norm_index.
  destruct (Z.leb_spec 0 i), (Z.ltb_spec i (Z.of_nat len)); simpl; (done || lia).
Qed.

Lemma norm_index_neg (i : Z) (len : nat) :
  - Z.of_nat len <= i < 0 -> norm_index i len = Ok (Z.to_nat (i + Z.of_nat len)).
Proof.
  intros H. unfold norm_index.
  destruct (Z.leb_spec 0 i); [lia|]. simpl.
  destruct (Z.leb_spec (- Z.of_nat len) i), (Z.ltb_spec i 0); simpl; (done || lia).
Qed.

Lemma norm_index_out (i : Z) (len : nat) :
  i < - Z.of_nat len \/ Z.of_nat len <= i -> norm_index i len = Raise IndexError.
Proof.
  intros H. unfold norm_index.
  destruct (Z.leb_spec 0 i), (Z.ltb_spec i (Z.of_nat len)),
    (Z.leb_spec (- Z.of_nat len) i), (Z.ltb_spec i 0); simpl; (done || lia).
Qed.

Lemma getitem_out {A : Type} (l : list A) (i : Z) :
  i < - Z.of_nat (length l) \/ Z.of_nat (length l) <= i ->
  getitem l i = Raise IndexError.
Proof. intros H. unfold getitem. by rewrite norm_index_out. Qed.

Lemma getitem_nonneg {A : Type} (l : list A) (i : Z) (x : A) :
  0 <= i -> l !! Z.to_nat i = Some x -> getitem l i = Ok x.
Proof.
  intros Hi Hx. unfold getitem.
  rewrite norm_index_nonneg by (apply lookup_lt_Some in Hx; lia).
  simpl. by rewrite Hx.
Qed.

(** A negative index addresses the cell [len] places further on. *)
Lemma getitem_neg {A : Type} (l : list A) (i : Z) :
  - Z.of_nat (length l) <= i < 0 ->
  getitem l i = getitem l (i + Z.of_nat (length l)).
Proof.
  intros Hi. unfold getitem.
  rewrite norm_index_neg by done. by rewrite norm_index_nonneg by lia.
Qed.

Lemma getitem_elem_of {A : Type} (l : list A) (i : Z) (x : A) :
  getitem l i = Ok x -> x ∈ l.
Proof.
  unfold getitem. destruct (norm_index i (length l)) as [k|]; simpl; [|done].
  destruct (l !! k) eqn:Hk; [|done].
  intros [= ->]. by eapply list_elem_of_lookup_2.
Qed.

Lemma getitem_in_range {A : Type} (l : list A) (i : Z) :
  0 <= i < Z.of_nat (length l) -> exists x, getitem l i = Ok x.
Proof.
  intros Hi. destruct (lookup_lt_is_Some_2 l (Z.to_nat i)) as [x Hx]; [lia|].
  exists x. apply getitem_nonneg; [lia|done].
Qed.

(** ** The two-dimensional array *)

Lemma offset_split (n r c : Z) :
  0 <= r -> 0 <= c -> 0 <= n ->
  offset n (r, c) = (Z.to_nat r * Z.to_nat n + Z.to_nat c)%nat.
Proof.
  intros. unfold offset. simpl.
  rewrite Z2Nat.inj_add, Z2Nat.inj_mul by lia. done.
Qed.

Lemma offset_inj (n : Z) (p q : position) :
  in_board n p -> in_board n q -> offset n p = offset n q -> p = q.
Proof.
  destruct p as [r c], q as [r' c']. unfold in_board, offset. simpl.
  intros [? ?] [? ?] Heq.
  assert (r * n + c = r' * n + c') as Hz by nia.
  assert (r = r') by nia. subst r'.
  f_equal. lia.
Qed.

Lemma offset_lt (n : Z) (p : position) :
  in_board n p -> (offset n p < Z.to_nat (n * n))%nat.
Proof.
  destruct p as [r c]. unfold in_board, offset. simpl. intros [? ?].
  apply Z2Nat.inj_lt; nia.
Qed.

Lemma square_row (n : Z) (a : list (list Z)) (r : Z) :
  square n a -> 0 <= r < n ->
  exists row, a !! Z.to_nat r = Some row /\ length row = Z.to_nat n.
Proof.
  intros [Hlen Hrows] Hr.
  destruct (lookup_lt_is_Some_2 a (Z.to_nat r)) as [row Hrow]; [lia|].
  exists row. split; [done|].
  by apply (Forall_lookup_1 _ _ _ _ Hrows Hrow).
Qed.

Lemma getitem2_flat (n : Z) (a : list (list Z)) (p : position) :
  square n a -> in_board n p ->
  exists v, getitem2 a p.1 p.2 = Ok v /\ flatten a !! offset n p = Some v.
Proof.
  destruct p as [r c]. intros Hsq [Hr Hc]. simpl in *.
  destruct (square_row n a r Hsq Hr) as (row & Hrow & Hlen).
  destruct (lookup_lt_is_Some_2 row (Z.to_nat c)) as [v Hv]; [lia|].
  exists v. split.
  - unfold getitem2. rewrite (getitem_nonneg a r row) by (lia || done).
    simpl. apply getitem_nonneg; [lia|done].
  - unfold flatten. rewrite offset_split by lia.
    rewrite (concat_lookup (Z.to_nat n)) by (apply Hsq || lia).
    rewrite Hrow. simpl. done.
Qed.

Lemma setitem2_flat (n : Z) (a : list (list Z)) (p : position) (v : Z) :
  square n a -> in_board n p ->
  exists a', setitem2 a p.1 p.2 v = Ok a' /\ square n a' /\
             flatten a' = <[offset n p := v]> (flatten a).
Proof.
  destruct p as [r c]. intros Hsq [Hr Hc]. simpl in *.
  destruct (square_row n a r Hsq Hr) as (row & Hrow & Hlen).
  destruct Hsq as [Hlena Hrows].
  exists (<[Z.to_nat r := <[Z.to_nat c := v]> row]> a). split; [|split].
  - unfold setitem2. rewrite norm_index_nonneg by lia. simpl.
    rewrite Hrow. rewrite norm_index_nonneg by lia. done.
  - split; [by rewrite length_insert|].
    apply Forall_insert; [done|]. by rewrite length_insert.
  - unfold flatten. rewrite offset_split by lia.
    by apply concat_insert; [|  |lia].
Qed.

(** Storing the value a cell already holds changes nothing. *)
Lemma setitem2_same (n : Z) (a : list (list Z)) (p : position) (v : Z) :
  square n a -> in_board n p ->
  getitem2 a p.1 p.2 = Ok v -> setitem2 a p.1 p.2 v = Ok a.
Proof.
  destruct p as [r c]. intros Hsq [Hr Hc]. simpl in *.
  destruct (square_row n a r Hsq Hr) as (row & Hrow & Hlen).
  destruct (lookup_lt_is_Some_2 row (Z.to_nat c)) as [v' Hv']; [lia|].
  unfold getitem2. rewrite (getitem_nonneg a r row) by (lia || done). simpl.
  rewrite (getitem_nonneg row c v') by (lia || done). intros [= ->].
  destruct Hsq as [Hlena Hrows].
  unfold setitem2. rewrite norm_index_nonneg by lia. simpl.
  rewrite Hrow. rewrite norm_index_nonneg by lia. simpl.
  by rewrite (list_insert_id row), (list_insert_id a).
Qed.

(** A cell read back through the flat view. *)
Lemma getitem2_of_flat (n : Z) (a : list (list Z)) (p : position) (v : Z) :
  square n a -> in_board n p ->
  flatten a !! offset n p = Some v -> getitem2 a p.1 p.2 = Ok v.
Proof.
  intros Hsq Hp Hv. destruct (getitem2_flat n a p Hsq Hp) as (v' & Hg & Hf).
  congruence.
Qed.

(** ** Board geometry *)

Lemma wrap_mod (v n : Z) : 0 < n -> wrap v n = v mod n.
Proof.
  intros Hn. unfold wrap.
  rewrite <- (Z.mul_1_l n) at 2. rewrite Z.mod_add by lia.
  apply Z.mod_mod. lia.
Qed.

Lemma wrap_trunc_mod (v n : Z) : 0 < n -> wrap_trunc v n = v mod n.
Proof.
  intros Hn. unfold wrap_trunc.
  pose proof (Z.rem_bound_abs v n ltac:(lia)) as Hb.
  rewrite Z.rem_mod_nonneg by lia.
  rewrite <- (Z.mul_1_l n) at 2. rewrite Z.mod_add by lia.
  rewrite (Z.quot_rem' v n) at 2.
  rewrite Z.add_comm, (Z.mul_comm n), Z.mod_add by lia. done.
Qed.

Lemma wrap_range (v n : Z) : 0 < n -> 0 <= wrap v n < n.
Proof. intros Hn. rewrite wrap_mod by done. apply Z.mod_pos_bound. lia. Qed.

Lemma wrap_pos_in_board (n : Z) (p : position) : 0 < n -> in_board n (wrap_pos n p).
Proof. intros Hn. split; simpl; by apply wrap_range. Qed.

Lemma py_mod_wrap (v n : Z) : 0 < n -> py_mod v n = Ok (wrap v n).
Proof.
  intros Hn. unfold py_mod. destruct (Z.eqb_spec n 0); [lia|].
  by rewrite wrap_mod.
Qed.

(** ** Move generators *)

Lemma wrap_moves_fmap (n : Z) (moves : list position) :
  0 < n -> wrap_moves n moves = Ok (wrap_pos n <$> moves).
Proof.
  intros Hn. induction moves as [|[x y] rest IH]; [done|].
  simpl. rewrite !py_mod_wrap by done. simpl. by rewrite IH.
Qed.

Lemma knight_moves_wrap (self : ChessCrypt) (pos : position) :
  0 < box_size self ->
  _get_knight_moves self pos = Ok (wrap_pos (box_size self) <$> knight_offsets pos).
Proof. intros Hn. by apply wrap_moves_fmap. Qed.

Lemma king_moves_wrap (self : ChessCrypt) (pos : position) :
  0 < box_size self ->
  _get_king_moves self pos = Ok (wrap_pos (box_size self) <$> king_offsets pos).
Proof.
  intros Hn. unfold _get_king_moves, king_inner. simpl.
  rewrite !py_mod_wrap by done. reflexivity.
Qed.

Lemma bishop_loop (n : Z) (d p : position) (moves : list position) (steps : nat) :
  0 < n ->
  repeat_m steps (bishop_inner n d) (p, moves)
  = Ok (walk_end n d p steps, moves ++ cumulative_walk n d p steps).
Proof.
  intros Hn. revert p moves.
  induction steps as [|k IH]; intros [x y] moves; simpl.
  - by rewrite app_nil_r.
  - rewrite !py_mod_wrap by done. simpl.
    rewrite IH. by rewrite <- app_assoc.
Qed.

Lemma bishop_moves_cumulative (self : ChessCrypt) (pos : position) :
  0 < box_size self ->
  _get_bishop_moves self pos = Ok (cumulative_bishop_moves (box_size self) pos).
Proof.
  intros Hn. unfold _get_bishop_moves, cumulative_bishop_moves. simpl.
  rewrite !bishop_loop by done. simpl.
  rewrite !bishop_loop by done. simpl.
  rewrite !bishop_loop by done. simpl.
  rewrite !bishop_loop by done. simpl.
  by rewrite app_nil_r, <- !app_assoc.
Qed.

Lemma cumulative_walk_length (n : Z) (d p : position) (steps : nat) :
  length (cumulative_walk n d p steps) = steps.
Proof. revert p. induction steps as [|k IH]; intros p; simpl; [done|]. by rewrite IH. Qed.

Lemma cumulative_walk_in_board (n : Z) (d p : position) (steps : nat) :
  0 < n -> Forall (in_board n) (cumulative_walk n d p steps).
Proof.
  intros Hn. revert p. induction steps as [|k IH]; intros p; simpl; [done|].
  constructor; [by apply wrap_pos_in_board | apply IH].
Qed.

Lemma cumulative_walk_independent (n : Z) (d p : position) (steps : nat) :
  0 < n -> cumulative_walk n d p steps = independent_walk n d p steps.
Proof.
  intros Hn. revert p. induction steps as [|k IH]; intros p; [done|].
  simpl cumulative_walk. rewrite IH. unfold independent_walk.
  rewrite (seqZ_cons 1 (Z.of_nat (Datatypes.S k))) by lia.
  replace (Z.pred (Z.of_nat (Datatypes.S k))) with (Z.of_nat k) by lia.
  change (Z.succ 1) with (1 + 1).
  rewrite <- (fmap_add_seqZ 1 1), fmap_cons, <- list_fmap_compose.
  f_equal.
  - unfold wrap_pos. simpl. rewrite !wrap_mod by done.
    f_equal; f_equal; lia.
  - apply list_fmap_ext. intros _ j _. unfold wrap_pos. simpl.
    rewrite !wrap_mod by done. rewrite !Zplus_mod_idemp_l.
    f_equal; f_equal; lia.
Qed.

Lemma bishop_cumulative_independent (n : Z) (pos : position) :
  0 < n -> cumulative_bishop_moves n pos = independent_bishop_moves n pos.
Proof.
  intros Hn. unfold cumulative_bishop_moves, independent_bishop_moves.
  f_equal. apply list_fmap_ext. intros _ d _.
  by apply cumulative_walk_independent.
Qed.

Lemma cumulative_bishop_moves_length (n : Z) (pos : position) :
  0 <= n -> Z.of_nat (length (cumulative_bishop_moves n pos)) = 4 * n.
Proof.
  intros Hn. unfold cumulative_bishop_moves. simpl.
  rewrite !length_app, !cumulative_walk_length. simpl. lia.
Qed.

Lemma cumulative_bishop_moves_in_board (n : Z) (pos : position) :
  0 < n -> Forall (in_board n) (cumulative_bishop_moves n pos).
Proof.
  intros Hn. unfold cumulative_bishop_moves. simpl.
  rewrite !Forall_app. repeat split; try by apply cumulative_walk_in_board.
  done.
Qed.

Lemma fmap_wrap_in_board (n : Z) (l : list position) :
  0 < n -> Forall (in_board n) (wrap_pos n <$> l).
Proof.
  intros Hn. apply Forall_fmap, Forall_true. intros p.
  by apply wrap_pos_in_board.
Qed.

(** ** Swap *)

Lemma swap_positions_flat (n : Z) (self : ChessCrypt) (pos1 pos2 : position) :
  square n (sbox self) -> in_board n pos1 -> in_board n pos2 ->
  exists a' v1 v2,
    flatten (sbox self) !! offset n pos1 = Some v1 /\
    flatten (sbox self) !! offset n pos2 = Some v2 /\
    _swap_positions self pos1 pos2 = Ok (set_sbox self a') /\
    square n a' /\
    flatten a' = <[offset n pos2 := v1]> (<[offset n pos1 := v2]> (flatten (sbox self))).
Proof.
  intros Hsq H1 H2.
  destruct (getitem2_flat n _ pos1 Hsq H1) as (v1 & Hg1 & Hf1).
  destruct (getitem2_flat n _ pos2 Hsq H2) as (v2 & Hg2 & Hf2).
  destruct (setitem2_flat n _ pos1 v2 Hsq H1) as (a1 & Hs1 & Hsq1 & Hfl1).
  destruct (setitem2_flat n a1 pos2 v1 Hsq1 H2) as (a2 & Hs2 & Hsq2 & Hfl2).
  exists a2, v1, v2. repeat split; try done.
  - unfold _swap_positions. rewrite Hg2, Hg1. simpl. rewrite Hs1. simpl.
    by rewrite Hs2.
  - apply Hsq2.
  - apply Hsq2.
  - by rewrite Hfl2, Hfl1.
Qed.

Lemma swap_positions_self (n : Z) (self : ChessCrypt) (pos : position) :
  square n (sbox self) -> in_board n pos ->
  _swap_positions self pos pos = Ok self.
Proof.
  intros Hsq Hp.
  destruct (getitem2_flat n _ pos Hsq Hp) as (v & Hg & _).
  unfold _swap_positions. rewrite Hg. simpl.
  rewrite (setitem2_same n) by done. simpl.
  rewrite (setitem2_same n) by done. simpl.
  by destruct self.
Qed.

(** ** Construction *)

Lemma init_ok (n : Z) : 0 <= n -> __init__ n = Ok (initial n).
Proof.
  intros Hn. unfold __init__, arange_square.
  destruct (Z.ltb_spec n 0); [lia|]. done.
Qed.

Lemma identity_rows_concat (n m : Z) (k : nat) :
  0 <= n ->
  concat ((fun r => (fun c => r * n + c) <$> seqZ 0 n) <$> seqZ m (Z.of_nat k))
  = seqZ (m * n) (Z.of_nat k * n).
Proof.
  intros Hn. revert m. induction k as [|k IH]; intros m.
  - simpl. by rewrite (seqZ_nil (m * n)) by lia.
  - rewrite (seqZ_cons m) by lia.
    replace (Z.pred (Z.of_nat (Datatypes.S k))) with (Z.of_nat k) by lia.
    rewrite fmap_cons. simpl concat. rewrite IH.
    change (fun c => m * n + c) with (Z.add (m * n)).
    rewrite fmap_add_seqZ.
    replace (Z.of_nat (Datatypes.S k) * n) with (n + Z.of_nat k * n) by lia.
    rewrite seqZ_app by nia.
    do 2 f_equal; lia.
Qed.

Lemma identity_table_flatten (n : Z) :
  0 <= n -> flatten (identity_table n) = seqZ 0 (n * n).
Proof.
  intros Hn. unfold flatten, identity_table.
  pose proof (identity_rows_concat n 0 (Z.to_nat n) Hn) as H.
  rewrite Z2Nat.id in H by done. by rewrite H, Z.mul_0_l.
Qed.

Lemma identity_table_square (n : Z) : square n (identity_table n).
Proof.
  split.
  - unfold identity_table. by rewrite length_fmap, length_seqZ.
  - unfold identity_table. apply Forall_fmap, Forall_true. intros r. simpl.
    by rewrite length_fmap, length_seqZ.
Qed.

Lemma identity_table_cell (n : Z) (p : position) :
  in_board n p -> getitem2 (identity_table n) p.1 p.2 = Ok (p.1 * n + p.2).
Proof.
  intros Hp. apply (getitem2_of_flat n); [apply identity_table_square|done|].
  assert (0 <= n) by (destruct Hp; lia).
  rewrite identity_table_flatten by done.
  pose proof (offset_lt n p Hp).
  rewrite lookup_seqZ_lt by lia.
  f_equal. unfold offset. destruct Hp. rewrite Z2Nat.id by nia. lia.
Qed.

Lemma initial_walk_inv (n : Z) : 1 <= n -> walk_inv n (initial n).
Proof.
  intros Hn.
  assert (0 <= n / 2 < n) by (split; [apply Z.div_pos | apply Z.div_lt_upper_bound]; lia).
  split; [done|]. split; [apply identity_table_square|].
  split; [split; simpl; lia|]. split; [split; simpl; lia|].
  split; [split; simpl; lia|].
  simpl. by rewrite identity_table_flatten by lia.
Qed.

(** ** The walk *)

Lemma get_moves_ok (p : piece) (self : ChessCrypt) (pos : position) :
  0 < box_size self ->
  exists moves,
    get_moves p self pos = Ok moves /\
    Forall (in_board (box_size self)) moves /\
    0 < Z.of_nat (length moves).
Proof.
  intros Hn. destruct p; simpl.
  - exists (wrap_pos (box_size self) <$> knight_offsets pos).
    split; [by apply knight_moves_wrap|]. split; [by apply fmap_wrap_in_board|].
    simpl. lia.
  - exists (wrap_pos (box_size self) <$> king_offsets pos).
    split; [by apply king_moves_wrap|]. split; [by apply fmap_wrap_in_board|].
    simpl. lia.
  - exists (cumulative_bishop_moves (box_size self) pos).
    split; [by apply bishop_moves_cumulative|].
    split; [by apply cumulative_bishop_moves_in_board|].
    rewrite cumulative_bishop_moves_length; lia.
Qed.

Lemma set_pos_walk_inv (n : Z) (p : piece) (self : ChessCrypt)
  (a : list (list Z)) (pos : position) :
  walk_inv n self -> square n a -> flatten a ≡ₚ seqZ 0 (n * n) ->
  in_board n pos ->
  walk_inv n (set_pos p (set_sbox self a) pos).
Proof.
  intros (Hn & _ & Hk & Hkn & Hb & _) Hsq Hperm Hpos.
  destruct p; repeat split; simpl; try tauto; try apply Hsq; try apply Hpos;
    try apply Hk; try apply Hkn; try apply Hb.
Qed.

(** One move of one piece succeeds, draws once, and keeps the invariant. *)
Lemma move_piece_inv (rand : nat -> Z -> Z) (n : Z) (p : piece)
  (self : ChessCrypt) (k : nat) :
  rand_valid rand -> 0 < n -> walk_inv n self ->
  exists self',
    move_piece rand p (self, k) = Ok (self', Datatypes.S k) /\ walk_inv n self'.
Proof.
  intros Hrand Hn Hinv.
  pose proof Hinv as (Hbox & Hsq & Hk & Hkn & Hb & Hperm).
  assert (in_board n (get_pos p self)) as Hcur by (by destruct p).
  destruct (get_moves_ok p self (get_pos p self)) as (moves & Hmoves & Hin & Hlen);
    [lia|].
  rewrite Hbox in Hin.
  pose proof (Hrand k _ Hlen) as Hdraw.
  destruct (getitem_in_range moves _ Hdraw) as [new_pos Hnew].
  assert (in_board n new_pos) as Hnewin.
  { apply getitem_elem_of in Hnew. by apply (proj1 (Forall_forall _ _) Hin). }
  destruct (swap_positions_flat n self (get_pos p self) new_pos Hsq Hcur Hnewin)
    as (a' & v1 & v2 & Hv1 & Hv2 & Hswap & Hsq' & Hflat).
  exists (set_pos p (set_sbox self a') new_pos). split.
  - unfold move_piece. rewrite Hmoves. simpl. unfold randint.
    destruct (Z.leb_spec (Z.of_nat (length moves)) 0); [lia|]. simpl.
    rewrite Hnew. simpl. by rewrite Hswap.
  - apply set_pos_walk_inv; try done.
    rewrite Hflat. by rewrite swap_Permutation.
Qed.

Lemma iteration_inv (rand : nat -> Z -> Z) (n : Z) (self : ChessCrypt) (k : nat)
  (log : list world) :
  rand_valid rand -> 0 < n -> walk_inv n self ->
  exists s1 s2 s3,
    iteration rand (self, k) = Ok (s3, (3 + k)%nat) /\
    iteration_logged rand ((self, k), log)
    = Ok ((s3, (3 + k)%nat),
          log ++ [(s1, (1 + k)%nat); (s2, (2 + k)%nat); (s3, (3 + k)%nat)]) /\
    walk_inv n s1 /\ walk_inv n s2 /\ walk_inv n s3.
Proof.
  intros Hrand Hn Hinv.
  destruct (move_piece_inv rand n Knight self k Hrand Hn Hinv) as (s1 & E1 & I1).
  destruct (move_piece_inv rand n King s1 (Datatypes.S k) Hrand Hn I1) as (s2 & E2 & I2).
  destruct (move_piece_inv rand n Bishop s2 (Datatypes.S (Datatypes.S k)) Hrand Hn I2)
    as (s3 & E3 & I3).
  exists s1, s2, s3. split_and!; try done.
  - unfold iteration. rewrite E1. cbn [bind]. rewrite E2. cbn [bind]. by rewrite E3.
  - unfold iteration_logged, logged. cbn [fst snd bind]. rewrite E1. cbn [fst snd bind].
    rewrite E2. cbn [fst snd bind]. rewrite E3. cbn [fst snd bind].
    by rewrite <- !app_assoc.
Qed.

Lemma walk_loop_inv (rand : nat -> Z -> Z) (n : Z) (count : nat)
  (self : ChessCrypt) (k : nat) (log : list world) :
  rand_valid rand -> 0 < n -> walk_inv n self ->
  exists self' log',
    repeat_m count (iteration rand) (self, k) = Ok (self', (3 * count + k)%nat) /\
    repeat_m count (iteration_logged rand) ((self, k), log)
    = Ok ((self', (3 * count + k)%nat), log ++ log') /\
    walk_inv n self' /\
    length log' = (3 * count)%nat /\
    Forall (fun w => walk_inv n w.1) log'.
Proof.
  intros Hrand Hn. revert self k log.
  induction count as [|count IH]; intros self k log Hinv.
  - exists self, []. simpl. by rewrite app_nil_r.
  - destruct (iteration_inv rand n self k log Hrand Hn Hinv)
      as (s1 & s2 & s3 & E & El & I1 & I2 & I3).
    destruct (IH s3 (3 + k)%nat
                (log ++ [(s1, (1 + k)%nat); (s2, (2 + k)%nat); (s3, (3 + k)%nat)]) I3)
      as (self' & log' & R & Rl & I' & Hlen & Hall).
    exists self', ([(s1, (1 + k)%nat); (s2, (2 + k)%nat); (s3, (3 + k)%nat)] ++ log').
    replace (3 * Datatypes.S count + k)%nat with (3 * count + (3 + k))%nat by lia.
    split_and!; try done.
    + cbn [repeat_m]. rewrite E. cbn [bind]. exact R.
    + cbn [repeat_m]. rewrite El. cbn [bind]. rewrite Rl. by rewrite <- app_assoc.
    + cbn [app length]. lia.
    + repeat (constructor; [done|]). exact Hall.
Qed.

(** *** The draws decide the run *)

Lemma move_piece_counter (rand : nat -> Z -> Z) (p : piece) (self self' : ChessCrypt)
  (k k' : nat) :
  move_piece rand p (self, k) = Ok (self', k') -> k' = Datatypes.S k.
Proof.
  unfold move_piece.
  destruct (get_moves p self (get_pos p self)) as [moves|]; simpl; [|done].
  unfold randint. destruct (Z.of_nat (length moves) <=? 0); simpl; [done|].
  destruct (getitem moves _) as [new_pos|]; simpl; [|done].
  destruct (_swap_positions self _ new_pos); simpl; [|done].
  by intros [= _ <-].
Qed.

Lemma move_piece_ext (rand1 rand2 : nat -> Z -> Z) (p : piece) (self : ChessCrypt)
  (k : nat) :
  (forall high, rand1 k high = rand2 k high) ->
  move_piece rand1 p (self, k) = move_piece rand2 p (self, k).
Proof.
  intros H. unfold move_piece.
  destruct (get_moves p self (get_pos p self)) as [moves|]; simpl; [|done].
  unfold randint. by rewrite H.
Qed.

Lemma iteration_counter (rand : nat -> Z -> Z) (self self' : ChessCrypt) (k k' : nat) :
  iteration rand (self, k) = Ok (self', k') -> k' = (3 + k)%nat.
Proof.
  unfold iteration.
  destruct (move_piece rand Knight (self, k)) as [[s1 k1]|] eqn:E1; cbn [bind]; [|done].
  destruct (move_piece rand King (s1, k1)) as [[s2 k2]|] eqn:E2; cbn [bind]; [|done].
  intros E3.
  apply move_piece_counter in E1, E2, E3. lia.
Qed.

Lemma iteration_ext (rand1 rand2 : nat -> Z -> Z) (self : ChessCrypt) (k : nat) :
  (forall j high, (k <= j < 3 + k)%nat -> rand1 j high = rand2 j high) ->
  iteration rand1 (self, k) = iteration rand2 (self, k).
Proof.
  intros H. unfold iteration.
  rewrite (move_piece_ext rand1 rand2 Knight) by (intros; apply H; lia).
  destruct (move_piece rand2 Knight (self, k)) as [[s1 k1]|] eqn:E1; cbn [bind]; [|done].
  apply move_piece_counter in E1 as ->.
  rewrite (move_piece_ext rand1 rand2 King) by (intros; apply H; lia).
  destruct (move_piece rand2 King (s1, Datatypes.S k)) as [[s2 k2]|] eqn:E2; cbn [bind]; [|done].
  apply move_piece_counter in E2 as ->.
  apply move_piece_ext. intros; apply H; lia.
Qed.

Lemma walk_loop_ext (rand1 rand2 : nat -> Z -> Z) (count : nat) (self : ChessCrypt)
  (k : nat) :
  (forall j high, (k <= j < 3 * count + k)%nat -> rand1 j high = rand2 j high) ->
  repeat_m count (iteration rand1) (self, k) = repeat_m count (iteration rand2) (self, k).
Proof.
  revert self k. induction count as [|count IH]; intros self k H; [done|].
  cbn [repeat_m]. rewrite (iteration_ext rand1 rand2) by (intros; apply H; lia).
  destruct (iteration rand2 (self, k)) as [[s' k']|] eqn:E; cbn [bind]; [|done].
  apply iteration_counter in E as ->.
  apply IH. intros; apply H; lia.
Qed.

(** ** Substitution *)

Lemma substitute_cell (self : ChessCrypt) (input_byte : Z) :
  0 < box_size self ->
  substitute self input_byte
  = getitem2 (sbox self) (input_byte / box_size self) (input_byte mod box_size self).
Proof.
  intros Hn. unfold substitute, py_floordiv, py_mod.
  destruct (Z.eqb_spec (box_size self) 0); [lia|]. done.
Qed.

Lemma getitem2_row_out (a : list (list Z)) (r c : Z) :
  r < - Z.of_nat (length a) \/ Z.of_nat (length a) <= r ->
  getitem2 a r c = Raise IndexError.
Proof. intros H. unfold getitem2. by rewrite getitem_out. Qed.

Lemma getitem2_row_neg (a : list (list Z)) (r c : Z) :
  - Z.of_nat (length a) <= r < 0 ->
  getitem2 a r c = getitem2 a (r + Z.of_nat (length a)) c.
Proof. intros H. unfold getitem2. by rewrite getitem_neg. Qed.

Lemma substitute_in_range (n : Z) (self : ChessCrypt) (input_byte : Z) :
  0 < n -> box_size self = n -> square n (sbox self) ->
  0 <= input_byte < n * n ->
  exists v, substitute self input_byte = Ok v /\
            getitem2 (sbox self) (input_byte / n) (input_byte mod n) = Ok v /\
            flatten (sbox self) !! Z.to_nat input_byte = Some v.
Proof.
  intros Hn Hbox Hsq Hin.
  assert (in_board n (input_byte / n, input_byte mod n)) as Hp.
  { split; simpl.
    - split; [apply Z.div_pos; lia | apply Z.div_lt_upper_bound; lia].
    - apply Z.mod_pos_bound. lia. }
  destruct (getitem2_flat n _ _ Hsq Hp) as (v & Hg & Hf). simpl in Hg.
  exists v. split_and!; try done.
  - rewrite substitute_cell by lia. by rewrite Hbox.
  - unfold offset in Hf. simpl in Hf.
    replace (input_byte / n * n + input_byte mod n) with input_byte in Hf; [done|].
    rewrite (Z.div_mod input_byte n) at 1 by lia. lia.
Qed.

Lemma substitute_out_of_range (n : Z) (self : ChessCrypt) (input_byte : Z) :
  0 < n -> box_size self = n -> square n (sbox self) ->
  input_byte < - (n * n) \/ n * n <= input_byte ->
  substitute self input_byte = Raise IndexError.
Proof.
  intros Hn Hbox [Hlen _] Hout.
  rewrite substitute_cell by lia. rewrite Hbox.
  apply getitem2_row_out. rewrite Hlen, Z2Nat.id by lia.
  destruct Hout as [Hlo|Hhi].
  - left. apply Z.div_lt_upper_bound; lia.
  - right. apply Z.div_le_lower_bound; lia.
Qed.

Lemma substitute_shift (n : Z) (self : ChessCrypt) (input_byte : Z) :
  0 < n -> box_size self = n -> square n (sbox self) ->
  - (n * n) <= input_byte < 0 ->
  substitute self input_byte = substitute self (input_byte + n * n).
Proof.
  intros Hn Hbox [Hlen _] Hin.
  rewrite !substitute_cell by lia. rewrite Hbox.
  rewrite Z.div_add, Z.mod_add by lia.
  rewrite getitem2_row_neg; rewrite Hlen, Z2Nat.id by lia; [done|].
  split; [apply Z.div_le_lower_bound; lia | apply Z.div_lt_upper_bound; lia].
Qed.

(** ** A generator for the examples *)

Lemma rand_cycle_valid : rand_valid (fun k high => Z.of_nat k mod high).
Proof. intros k high Hhigh. apply Z.mod_pos_bound. lia. Qed.

(** * The claims *)

(** C1. For every [side_length >= 3] and every [iteration_count >= 0], after
    [generate_sbox] the flattened table is a permutation of
    [0, ..., side_length^2 - 1]; the same holds of the table after every swap
    made during the generation (the log holds the object after each of the
    [3 * iteration_count] swaps). *)
Theorem generate_sbox_bijective (rand : nat -> Z -> Z) (n iterations : Z) (k : nat) :
  3 <= n -> 0 <= iterations -> rand_valid rand ->
  exists self0 self' k' log,
    __init__ n = Ok self0 /\
    generate_sbox rand self0 iterations k = Ok (self', k') /\
    flatten (sbox self') ≡ₚ seqZ 0 (n * n) /\
    generate_sbox_logged rand self0 iterations k = Ok ((self', k'), log) /\
    length log = (3 * Z.to_nat iterations)%nat /\
    Forall (fun w => flatten (sbox w.1) ≡ₚ seqZ 0 (n * n)) log.
Proof.
  intros Hn Hit Hrand.
  destruct (walk_loop_inv rand n (Z.to_nat iterations) (initial n) k [] Hrand)
    as (self' & log & R & Rl & Hinv & Hlen & Hall); [lia | apply initial_walk_inv; lia |].
  exists (initial n), self', (3 * Z.to_nat iterations + k)%nat, log.
  split_and!; try done.
  - apply init_ok. lia.
  - apply Hinv.
  - eapply Forall_impl; [exact Hall|]. intros w Hw. apply Hw.
Qed.

Lemma generate_sbox_bijective_witness :
  exists self0 self' k' log,
    __init__ 3 = Ok self0 /\
    generate_sbox (fun k high => Z.of_nat k mod high) self0 2 0 = Ok (self', k') /\
    flatten (sbox self') ≡ₚ seqZ 0 (3 * 3) /\
    generate_sbox_logged (fun k high => Z.of_nat k mod high) self0 2 0
    = Ok ((self', k'), log) /\
    length log = (3 * Z.to_nat 2)%nat /\
    Forall (fun w => flatten (sbox w.1) ≡ₚ seqZ 0 (3 * 3)) log.
Proof.
  apply (generate_sbox_bijective (fun k high => Z.of_nat k mod high) 3 2 0);
    [lia | lia | exact rand_cycle_valid].
Defined.

(** C2. Generation is deterministic given the random source: two runs on the
    same object with the same iteration count whose generators return the
    same draws (the calls numbered [k] to [k + 3 * iterations - 1]) give the
    same result, table and cursors alike. *)
Theorem generate_sbox_deterministic (rand1 rand2 : nat -> Z -> Z) (self : ChessCrypt)
  (iterations : Z) (k : nat) :
  (forall j high, (k <= j < 3 * Z.to_nat iterations + k)%nat ->
                  rand1 j high = rand2 j high) ->
  generate_sbox rand1 self iterations k = generate_sbox rand2 self iterations k.
Proof. intros H. unfold generate_sbox. by apply walk_loop_ext. Qed.

Lemma generate_sbox_deterministic_witness :
  generate_sbox (fun k high => Z.of_nat k mod high) (initial 16) 1000 0
  = generate_sbox
      (fun k high => if (k <? 3000)%nat then Z.of_nat k mod high else 0)
      (initial 16) 1000 0.
Proof.
  apply (generate_sbox_deterministic
           (fun k high => Z.of_nat k mod high)
           (fun k high => if (k <? 3000)%nat then Z.of_nat k mod high else 0)
           (initial 16) 1000 0).
  intros j high Hj. simpl in Hj.
  destruct (Nat.ltb_spec j 3000); [reflexivity | lia].
Defined.

(** C3, as the code has it. [substitute] raises [IndexError] for every input
    [>= side_length^2] and every input [< -side_length^2]; for an input in
    [[0, side_length^2)] it returns the cell at row [input // side_length],
    column [input % side_length], the [input]-th value of the flattened
    table, without error. *)
Theorem substitute_range (n : Z) (self : ChessCrypt) (input_byte : Z) :
  0 < n -> box_size self = n -> square n (sbox self) ->
  (input_byte < - (n * n) \/ n * n <= input_byte ->
   substitute self input_byte = Raise IndexError) /\
  (0 <= input_byte < n * n ->
   exists v, substitute self input_byte = Ok v /\
             getitem2 (sbox self) (input_byte / n) (input_byte mod n) = Ok v /\
             flatten (sbox self) !! Z.to_nat input_byte = Some v).
Proof.
  intros Hn Hbox Hsq. split.
  - by apply substitute_out_of_range.
  - by apply substitute_in_range.
Qed.

Lemma substitute_range_witness :
  (256 < - (16 * 16) \/ 16 * 16 <= 256 ->
   substitute (initial 16) 256 = Raise IndexError) /\
  (0 <= 256 < 16 * 16 ->
   exists v, substitute (initial 16) 256 = Ok v /\
             getitem2 (sbox (initial 16)) (256 / 16) (256 mod 16) = Ok v /\
             flatten (sbox (initial 16)) !! Z.to_nat 256 = Some v).
Proof.
  apply (substitute_range 16 (initial 16) 256);
    [lia | reflexivity | apply identity_table_square].
Defined.

(** C3 as stated fails: [-1] lies outside [[0, 16^2)], yet [substitute]
    on a fresh side 16 table returns the last cell. *)
Lemma substitute_negative_accepted :
  exists self, __init__ 16 = Ok self /\
               ~ (0 <= -1 < 16 * 16) /\
               substitute self (-1) = Ok 255.
Proof.
  exists (initial 16). split; [reflexivity|]. split; [lia|]. vm_compute. reflexivity.
Qed.

(** C4, as the code has it. On an object built with [side_length >= 1] and a
    generator that honours its bound, [generate_sbox] raises nothing for any
    iteration count, negative ones included; an iteration count [<= 0]
    leaves the object as it is and draws nothing. *)
Theorem generate_sbox_total (rand : nat -> Z -> Z) (n iterations : Z) (k : nat) :
  1 <= n -> rand_valid rand ->
  exists self0 w,
    __init__ n = Ok self0 /\
    generate_sbox rand self0 iterations k = Ok w /\
    (iterations <= 0 -> w = (self0, k)).
Proof.
  intros Hn Hrand.
  destruct (walk_loop_inv rand n (Z.to_nat iterations) (initial n) k [] Hrand)
    as (self' & log & R & _); [lia | apply initial_walk_inv; lia |].
  exists (initial n), (self', (3 * Z.to_nat iterations + k)%nat).
  split_and!; try done.
  - apply init_ok. lia.
  - intros Hneg.
    assert (Z.to_nat iterations = 0%nat) as E by lia.
    rewrite E in *. simpl in R. by injection R as <-.
Qed.

Lemma generate_sbox_total_witness :
  exists self0 w,
    __init__ 16 = Ok self0 /\
    generate_sbox (fun k high => Z.of_nat k mod high) self0 (-5) 0 = Ok w /\
    (-5 <= 0 -> w = (self0, 0%nat)).
Proof.
  apply (generate_sbox_total (fun k high => Z.of_nat k mod high) 16 (-5) 0);
    [lia | exact rand_cycle_valid].
Defined.

(** C4 as stated fails: a negative iteration count is not rejected. *)
Lemma generate_sbox_negative_accepted :
  exists self, __init__ 16 = Ok self /\
               -1 < 0 /\
               generate_sbox (fun _ _ => 0) self (-1) 0 = Ok (self, 0%nat).
Proof. exists (initial 16). split; [reflexivity|]. split; [lia|reflexivity]. Qed.

(** The bound on the side length matters: on an empty board the first
    modulo of the knight generator divides by zero. *)
Example generate_sbox_empty_board :
  __init__ 0 = Ok (initial 0) /\
  generate_sbox (fun _ _ => 0) (initial 0) 1 0 = Raise ZeroDivisionError.
Proof. split; reflexivity. Qed.

(** C5. At construction cell [(row, col)] holds [row * side_length + col],
    the flattened table is [0, 1, ..., side_length^2 - 1], and
    [generate_sbox] with zero iterations leaves the object as constructed. *)
Theorem init_identity_run_zero (rand : nat -> Z -> Z) (n row col : Z) (k : nat) :
  0 <= row < n -> 0 <= col < n ->
  exists self0,
    __init__ n = Ok self0 /\
    getitem2 (sbox self0) row col = Ok (row * n + col) /\
    flatten (sbox self0) = seqZ 0 (n * n) /\
    generate_sbox rand self0 0 k = Ok (self0, k).
Proof.
  intros Hr Hc. exists (initial n). split_and!.
  - apply init_ok. lia.
  - by apply (identity_table_cell n (row, col)).
  - apply identity_table_flatten. lia.
  - reflexivity.
Qed.

Lemma init_identity_run_zero_witness :
  exists self0,
    __init__ 16 = Ok self0 /\
    getitem2 (sbox self0) 7 11 = Ok (7 * 16 + 11) /\
    flatten (sbox self0) = seqZ 0 (16 * 16) /\
    generate_sbox (fun _ _ => 0) self0 0 0 = Ok (self0, 0%nat).
Proof. apply (init_identity_run_zero (fun _ _ => 0) 16 7 11 0); lia. Defined.

(** C6. From every position on the board the knight generator returns
    exactly 8 moves, the king generator exactly 8 moves and the bishop
    generator exactly [4 * side_length] moves. *)
Theorem move_set_lengths (self : ChessCrypt) (pos : position) :
  in_board (box_size self) pos ->
  exists knight_moves king_moves bishop_moves,
    _get_knight_moves self pos = Ok knight_moves /\
    length knight_moves = 8%nat /\
    _get_king_moves self pos = Ok king_moves /\
    length king_moves = 8%nat /\
    _get_bishop_moves self pos = Ok bishop_moves /\
    Z.of_nat (length bishop_moves) = 4 * box_size self.
Proof.
  intros [[? ?] _].
  exists (wrap_pos (box_size self) <$> knight_offsets pos),
         (wrap_pos (box_size self) <$> king_offsets pos),
         (cumulative_bishop_moves (box_size self) pos).
  split_and!.
  - apply knight_moves_wrap. lia.
  - reflexivity.
  - apply king_moves_wrap. lia.
  - reflexivity.
  - apply bishop_moves_cumulative. lia.
  - apply cumulative_bishop_moves_length. lia.
Qed.

Lemma move_set_lengths_witness :
  exists knight_moves king_moves bishop_moves,
    _get_knight_moves (initial 3) (1, 1) = Ok knight_moves /\
    length knight_moves = 8%nat /\
    _get_king_moves (initial 3) (1, 1) = Ok king_moves /\
    length king_moves = 8%nat /\
    _get_bishop_moves (initial 3) (1, 1) = Ok bishop_moves /\
    Z.of_nat (length bishop_moves) = 4 * box_size (initial 3).
Proof. apply (move_set_lengths (initial 3) (1, 1)). split; simpl; lia. Defined.

(** Duplicates are kept: on a side 3 board the knight at the centre has only
    four distinct destinations, each listed twice. *)
Example knight_moves_duplicates_kept :
  _get_knight_moves (initial 3) (1, 1)
  = Ok [(0, 2); (0, 0); (2, 2); (2, 0); (2, 0); (2, 2); (0, 0); (0, 2)].
Proof. reflexivity. Qed.

(** C7, as the code has it. The bishop generator walks each of the four
    diagonal directions cumulatively, [side_length] steps each, every step
    wrapping the previous wrapped point plus the direction; the list it
    returns equals the one computed step by step from the starting position
    as [(start + k * direction) mod side_length], [k = 1 .. side_length]. *)
Theorem bishop_walk_cumulative (self : ChessCrypt) (pos : position) :
  0 < box_size self ->
  _get_bishop_moves self pos = Ok (cumulative_bishop_moves (box_size self) pos) /\
  _get_bishop_moves self pos = Ok (independent_bishop_moves (box_size self) pos).
Proof.
  intros Hn. split.
  - by apply bishop_moves_cumulative.
  - rewrite <- bishop_cumulative_independent by done.
    by apply bishop_moves_cumulative.
Qed.

Lemma bishop_walk_cumulative_witness :
  _get_bishop_moves (initial 16) (15, 15)
  = Ok (cumulative_bishop_moves (box_size (initial 16)) (15, 15)) /\
  _get_bishop_moves (initial 16) (15, 15)
  = Ok (independent_bishop_moves (box_size (initial 16)) (15, 15)).
Proof. apply (bishop_walk_cumulative (initial 16) (15, 15)). simpl. lia. Defined.

(** C7 as stated fails: from the corner [(2, 2)] of a side 3 board the first
    diagonal step leaves the board and is wrapped, yet the cumulative walk of
    the code and the independent computation give the same list. *)
Lemma bishop_walks_agree_when_wrapping :
  exists self, __init__ 3 = Ok self /\
               ~ in_board 3 (2 + 1, 2 + 1) /\
               _get_bishop_moves self (2, 2) = Ok (independent_bishop_moves 3 (2, 2)).
Proof.
  exists (initial 3). split; [reflexivity|]. split; [|reflexivity].
  intros [[_ H] _]. simpl in H. lia.
Qed.

(** C8. From every position on the board, every move of the knight and of
    the king is its raw offset position with both coordinates passed through
    [wrap]; every step of the bishop is [wrap] of the previous step plus the
    direction; [wrap v n = ((v % n) + n) % n] is the mathematical modulo,
    whether [%] floors or truncates; and every returned coordinate lies in
    [[0, side_length)]. *)
Theorem moves_wrapped (self : ChessCrypt) (pos : position) :
  in_board (box_size self) pos ->
  _get_knight_moves self pos = Ok (wrap_pos (box_size self) <$> knight_offsets pos) /\
  _get_king_moves self pos = Ok (wrap_pos (box_size self) <$> king_offsets pos) /\
  _get_bishop_moves self pos = Ok (cumulative_bishop_moves (box_size self) pos) /\
  (forall v, wrap v (box_size self) = v mod box_size self /\
             wrap_trunc v (box_size self) = v mod box_size self /\
             0 <= wrap v (box_size self) < box_size self) /\
  Forall (in_board (box_size self))
    ((wrap_pos (box_size self) <$> knight_offsets pos) ++
     (wrap_pos (box_size self) <$> king_offsets pos) ++
     cumulative_bishop_moves (box_size self) pos).
Proof.
  intros [[? ?] _]. assert (0 < box_size self) as Hn by lia.
  split_and!.
  - by apply knight_moves_wrap.
  - by apply king_moves_wrap.
  - by apply bishop_moves_cumulative.
  - intros v. split; [by apply wrap_mod|]. split; [by apply wrap_trunc_mod|].
    by apply wrap_range.
  - rewrite !Forall_app. split_and!.
    + by apply fmap_wrap_in_board.
    + by apply fmap_wrap_in_board.
    + by apply cumulative_bishop_moves_in_board.
Qed.

Lemma moves_wrapped_witness :
  _get_knight_moves (initial 16) (0, 0)
  = Ok (wrap_pos (box_size (initial 16)) <$> knight_offsets (0, 0)) /\
  _get_king_moves (initial 16) (0, 0)
  = Ok (wrap_pos (box_size (initial 16)) <$> king_offsets (0, 0)) /\
  _get_bishop_moves (initial 16) (0, 0)
  = Ok (cumulative_bishop_moves (box_size (initial 16)) (0, 0)) /\
  (forall v, wrap v (box_size (initial 16)) = v mod box_size (initial 16) /\
             wrap_trunc v (box_size (initial 16)) = v mod box_size (initial 16) /\
             0 <= wrap v (box_size (initial 16)) < box_size (initial 16)) /\
  Forall (in_board (box_size (initial 16)))
    ((wrap_pos (box_size (initial 16)) <$> knight_offsets (0, 0)) ++
     (wrap_pos (box_size (initial 16)) <$> king_offsets (0, 0)) ++
     cumulative_bishop_moves (box_size (initial 16)) (0, 0)).
Proof. apply (moves_wrapped (initial 16) (0, 0)). split; simpl; lia. Defined.

(** C9. On an [n] by [n] table and for positions [pos1], [pos2] on the
    board, [_swap_positions] raises nothing, puts the old value of [pos2] at
    [pos1] and the old value of [pos1] at [pos2], leaves every other cell,
    the cursors and the side length as they were, and when [pos1 = pos2]
    leaves the whole object unchanged. *)
Theorem swap_positions_exchanges (n : Z) (self : ChessCrypt) (pos1 pos2 : position) :
  square n (sbox self) -> in_board n pos1 -> in_board n pos2 ->
  exists self' v1 v2,
    _swap_positions self pos1 pos2 = Ok self' /\
    getitem2 (sbox self) pos1.1 pos1.2 = Ok v1 /\
    getitem2 (sbox self) pos2.1 pos2.2 = Ok v2 /\
    getitem2 (sbox self') pos1.1 pos1.2 = Ok v2 /\
    getitem2 (sbox self') pos2.1 pos2.2 = Ok v1 /\
    (forall p, in_board n p -> p <> pos1 -> p <> pos2 ->
               getitem2 (sbox self') p.1 p.2 = getitem2 (sbox self) p.1 p.2) /\
    self' = set_sbox self (sbox self') /\
    (pos1 = pos2 -> self' = self).
Proof.
  intros Hsq H1 H2.
  destruct (swap_positions_flat n self pos1 pos2 Hsq H1 H2)
    as (a' & v1 & v2 & Hv1 & Hv2 & Hswap & Hsq' & Hflat).
  pose proof (lookup_lt_Some _ _ _ Hv1) as Hlt1.
  pose proof (lookup_lt_Some _ _ _ Hv2) as Hlt2.
  exists (set_sbox self a'), v1, v2. split_and!; try done.
  - by apply (getitem2_of_flat n).
  - by apply (getitem2_of_flat n).
  - apply (getitem2_of_flat n); try done. simpl. rewrite Hflat.
    destruct (decide (offset n pos2 = offset n pos1)) as [Heq|Hne].
    + rewrite Heq in *. rewrite list_lookup_insert_eq by (by rewrite length_insert).
      congruence.
    + rewrite list_lookup_insert_ne by done. by rewrite list_lookup_insert_eq.
  - apply (getitem2_of_flat n); try done. simpl. rewrite Hflat.
    by rewrite list_lookup_insert_eq by (by rewrite length_insert).
  - intros p Hp Hp1 Hp2.
    destruct (getitem2_flat n _ p Hsq Hp) as (v & Hg & Hf). rewrite Hg.
    apply (getitem2_of_flat n); try done. simpl. rewrite Hflat.
    rewrite !list_lookup_insert_ne; [done| |].
    + intros Heq. apply Hp1. symmetry. by apply (offset_inj n).
    + intros Heq. apply Hp2. symmetry. by apply (offset_inj n).
  - intros <-. rewrite (swap_positions_self n) in Hswap by done.
    by injection Hswap as <-.
Qed.

Lemma swap_positions_exchanges_witness :
  exists self' v1 v2,
    _swap_positions (initial 3) (0, 1) (2, 2) = Ok self' /\
    getitem2 (sbox (initial 3)) (0, 1).1 (0, 1).2 = Ok v1 /\
    getitem2 (sbox (initial 3)) (2, 2).1 (2, 2).2 = Ok v2 /\
    getitem2 (sbox self') (0, 1).1 (0, 1).2 = Ok v2 /\
    getitem2 (sbox self') (2, 2).1 (2, 2).2 = Ok v1 /\
    (forall p, in_board 3 p -> p <> (0, 1) -> p <> (2, 2) ->
               getitem2 (sbox self') p.1 p.2 = getitem2 (sbox (initial 3)) p.1 p.2) /\
    self' = set_sbox (initial 3) (sbox self') /\
    ((0, 1) = (2, 2) -> self' = initial 3).
Proof.
  apply (swap_positions_exchanges 3 (initial 3) (0, 1) (2, 2)).
  - apply identity_table_square.
  - split; simpl; lia.
  - split; simpl; lia.
Defined.

(** C10. For every input in [[-side_length^2, 0)], [substitute] returns a
    table value without raising: the cell at row [input // side_length +
    side_length], column [input % side_length], which is entry
    [input + side_length^2] of the flattened table and the value returned
    for [input + side_length^2]. *)
Theorem substitute_negative_wraps (n : Z) (self : ChessCrypt) (input_byte : Z) :
  0 < n -> box_size self = n -> square n (sbox self) ->
  - (n * n) <= input_byte < 0 ->
  exists v, substitute self input_byte = Ok v /\
            substitute self (input_byte + n * n) = Ok v /\
            getitem2 (sbox self) (input_byte / n + n) (input_byte mod n) = Ok v /\
            flatten (sbox self) !! Z.to_nat (input_byte + n * n) = Some v.
Proof.
  intros Hn Hbox Hsq Hin.
  destruct (substitute_in_range n self (input_byte + n * n) Hn Hbox Hsq)
    as (v & Hv & Hcell & Hflat); [lia|].
  rewrite Z.div_add, Z.mod_add in Hcell by lia.
  exists v. split_and!; try done.
  by rewrite (substitute_shift n).
Qed.

Lemma substitute_negative_wraps_witness :
  exists v, substitute (initial 16) (-256) = Ok v /\
            substitute (initial 16) (-256 + 16 * 16) = Ok v /\
            getitem2 (sbox (initial 16)) (-256 / 16 + 16) (-256 mod 16) = Ok v /\
            flatten (sbox (initial 16)) !! Z.to_nat (-256 + 16 * 16) = Some v.
Proof.
  apply (substitute_negative_wraps 16 (initial 16) (-256));
    [lia | reflexivity | apply identity_table_square | lia].
Defined.

(** * Further properties of the code *)

(** ** The loop *)

Lemma repeat_m_add {S : Type} (a b : nat) (body : S -> result S) (s : S) :
  repeat_m (a + b) body s = (let* s' := repeat_m a body s in repeat_m b body s').
Proof.
  revert s. induction a as [|a IH]; intros s; [done|].
  cbn [Nat.add repeat_m]. destruct (body s) as [s'|]; cbn [bind]; [apply IH|done].
Qed.

Lemma generate_walk_inv (rand : nat -> Z -> Z) (n iterations : Z) (k : nat)
  (self : ChessCrypt) :
  rand_valid rand -> 0 < n -> walk_inv n self ->
  exists self',
    generate_sbox rand self iterations k
    = Ok (self', (3 * Z.to_nat iterations + k)%nat) /\ walk_inv n self'.
Proof.
  intros Hrand Hn Hinv.
  destruct (walk_loop_inv rand n (Z.to_nat iterations) self k [] Hrand Hn Hinv)
    as (self' & log & R & _ & Hinv' & _).
  by exists self'.
Qed.

(** X1. A run on a fresh object of side [n >= 1] makes exactly three draws
    per iteration and leaves the side length, the [n] by [n] shape of the
    table and the three cursors on the board. *)
Theorem generate_sbox_keeps_shape (rand : nat -> Z -> Z) (n iterations : Z) (k : nat) :
  1 <= n -> rand_valid rand ->
  exists self0 self',
    __init__ n = Ok self0 /\
    generate_sbox rand self0 iterations k
    = Ok (self', (3 * Z.to_nat iterations + k)%nat) /\
    box_size self' = n /\
    square n (sbox self') /\
    in_board n (king_pos self') /\
    in_board n (knight_pos self') /\
    in_board n (bishop_pos self').
Proof.
  intros Hn Hrand.
  destruct (generate_walk_inv rand n iterations k (initial n) Hrand)
    as (self' & R & Hb & Hsq & Hk & Hkn & Hbi & _); [lia | apply initial_walk_inv; lia |].
  exists (initial n), self'. split_and!; try done. apply init_ok. lia.
Qed.

Lemma generate_sbox_keeps_shape_witness :
  exists self0 self',
    __init__ 16 = Ok self0 /\
    generate_sbox (fun k high => Z.of_nat k mod high) self0 1000 0
    = Ok (self', (3 * Z.to_nat 1000 + 0)%nat) /\
    box_size self' = 16 /\
    square 16 (sbox self') /\
    in_board 16 (king_pos self') /\
    in_board 16 (knight_pos self') /\
    in_board 16 (bishop_pos self').
Proof.
  apply (generate_sbox_keeps_shape (fun k high => Z.of_nat k mod high) 16 1000 0);
    [lia | exact rand_cycle_valid].
Defined.

(** X2. Runs resume: a run of [a + b] iterations is a run of [a] iterations
    followed by a run of [b] iterations on the object and the generator the
    first run left, for [a, b >= 0]; nothing is reset between runs. *)
Theorem generate_sbox_resumes (rand : nat -> Z -> Z) (self : ChessCrypt)
  (a b : Z) (k : nat) :
  0 <= a -> 0 <= b ->
  generate_sbox rand self (a + b) k
  = (let* w := generate_sbox rand self a k in generate_sbox rand w.1 b w.2).
Proof.
  intros Ha Hb. unfold generate_sbox.
  rewrite Z2Nat.inj_add by done. rewrite repeat_m_add.
  destruct (repeat_m (Z.to_nat a) (iteration rand) (self, k)) as [[s' k']|]; done.
Qed.

Lemma generate_sbox_resumes_witness :
  generate_sbox (fun k high => Z.of_nat k mod high) (initial 8) (3 + 4) 0
  = (let* w := generate_sbox (fun k high => Z.of_nat k mod high) (initial 8) 3 0 in
     generate_sbox (fun k high => Z.of_nat k mod high) w.1 4 w.2).
Proof.
  apply (generate_sbox_resumes (fun k high => Z.of_nat k mod high) (initial 8) 3 4 0); lia.
Defined.

(** X3. On an empty board (side 0) a run of at least one iteration raises
    [ZeroDivisionError], whatever the generator and the rest of the object. *)
Theorem generate_sbox_empty_board_raises (rand : nat -> Z -> Z) (self : ChessCrypt)
  (iterations : Z) (k : nat) :
  box_size self = 0 -> 1 <= iterations ->
  generate_sbox rand self iterations k = Raise ZeroDivisionError.
Proof.
  intros Hbox Hit. unfold generate_sbox.
  destruct (Z.to_nat iterations) as [|m] eqn:E; [lia|].
  cbn [repeat_m]. unfold iteration, move_piece. cbn [get_moves get_pos].
  unfold _get_knight_moves. rewrite Hbox. reflexivity.
Qed.

Lemma generate_sbox_empty_board_raises_witness :
  generate_sbox (fun _ _ => 0) (initial 0) 1000 0 = Raise ZeroDivisionError.
Proof.
  apply (generate_sbox_empty_board_raises (fun _ _ => 0) (initial 0) 1000 0);
    [reflexivity | lia].
Defined.

(** ** Substitution after a run *)

Lemma walk_inv_substitute_bijective (n : Z) (self : ChessCrypt) :
  0 < n -> walk_inv n self ->
  (forall x, 0 <= x < n * n ->
             exists y, substitute self x = Ok y /\ 0 <= y < n * n) /\
  (forall x x' y, 0 <= x < n * n -> 0 <= x' < n * n ->
                  substitute self x = Ok y -> substitute self x' = Ok y -> x = x') /\
  (forall y, 0 <= y < n * n ->
             exists x, 0 <= x < n * n /\ substitute self x = Ok y).
Proof.
  intros Hn (Hbox & Hsq & _ & _ & _ & Hperm).
  assert (NoDup (flatten (sbox self))) as Hnd.
  { rewrite Hperm. apply NoDup_seqZ. }
  assert (length (flatten (sbox self)) = Z.to_nat (n * n)) as Hlen.
  { rewrite Hperm. apply length_seqZ. }
  split_and!.
  - intros x Hx.
    destruct (substitute_in_range n self x Hn Hbox Hsq Hx) as (y & Hy & _ & Hf).
    exists y. split; [done|].
    apply list_elem_of_lookup_2 in Hf. rewrite Hperm in Hf.
    apply elem_of_seqZ in Hf. lia.
  - intros x x' y Hx Hx' Hy Hy'.
    destruct (substitute_in_range n self x Hn Hbox Hsq Hx) as (v & Hv & _ & Hf).
    destruct (substitute_in_range n self x' Hn Hbox Hsq Hx') as (v' & Hv' & _ & Hf').
    assert (v = y) by congruence. assert (v' = y) by congruence. subst v v'.
    pose proof (NoDup_lookup _ _ _ _ Hnd Hf Hf'). lia.
  - intros y Hy.
    assert (y ∈ flatten (sbox self)) as Hin.
    { rewrite Hperm. apply elem_of_seqZ. lia. }
    apply list_elem_of_lookup_1 in Hin as [i Hi].
    pose proof (lookup_lt_Some _ _ _ Hi) as Hlt.
    assert (0 <= Z.of_nat i < n * n) as Hx by lia.
    exists (Z.of_nat i). split; [done|].
    destruct (substitute_in_range n self _ Hn Hbox Hsq Hx) as (v & Hv & _ & Hf).
    rewrite Nat2Z.id in Hf. congruence.
Qed.

(** X4. After a run on a fresh object of side [n >= 1], [substitute] is a
    bijection of [[0, n^2)]: every input in the range gets a value in the
    range, two different inputs never get the same value, and every value of
    the range is the image of some input. *)
Theorem substitute_bijective (rand : nat -> Z -> Z) (n iterations : Z) (k : nat) :
  1 <= n -> rand_valid rand ->
  exists self0 self' k',
    __init__ n = Ok self0 /\
    generate_sbox rand self0 iterations k = Ok (self', k') /\
    (forall x, 0 <= x < n * n ->
               exists y, substitute self' x = Ok y /\ 0 <= y < n * n) /\
    (forall x x' y, 0 <= x < n * n -> 0 <= x' < n * n ->
                    substitute self' x = Ok y -> substitute self' x' = Ok y -> x = x') /\
    (forall y, 0 <= y < n * n ->
               exists x, 0 <= x < n * n /\ substitute self' x = Ok y).
Proof.
  intros Hn Hrand.
  destruct (generate_walk_inv rand n iterations k (initial n) Hrand)
    as (self' & R & Hinv); [lia | apply initial_walk_inv; lia |].
  exists (initial n), self', (3 * Z.to_nat iterations + k)%nat.
  split; [apply init_ok; lia|]. split; [done|].
  apply walk_inv_substitute_bijective; [lia|done].
Qed.

Lemma substitute_bijective_witness :
  exists self0 self' k',
    __init__ 16 = Ok self0 /\
    generate_sbox (fun k high => Z.of_nat k mod high) self0 1000 0 = Ok (self', k') /\
    (forall x, 0 <= x < 16 * 16 ->
               exists y, substitute self' x = Ok y /\ 0 <= y < 16 * 16) /\
    (forall x x' y, 0 <= x < 16 * 16 -> 0 <= x' < 16 * 16 ->
                    substitute self' x = Ok y -> substitute self' x' = Ok y -> x = x') /\
    (forall y, 0 <= y < 16 * 16 ->
               exists x, 0 <= x < 16 * 16 /\ substitute self' x = Ok y).
Proof.
  apply (substitute_bijective (fun k high => Z.of_nat k mod high) 16 1000 0);
    [lia | exact rand_cycle_valid].
Defined.

(** ** More on the swap *)

Lemma rows_concat_inj {A : Type} (m : nat) (a b : list (list A)) :
  Forall (fun row => length row = m) a ->
  Forall (fun row => length row = m) b ->
  length a = length b -> concat a = concat b -> a = b.
Proof.
  intros Ha. revert b. induction Ha as [|r a' Hr Ha' IH]; intros b Hb Hlen Hcat.
  - by destruct b.
  - destruct Hb as [|r' b' Hr' Hb']; [done|]. simpl in *.
    apply app_inj_1 in Hcat as [-> Hcat]; [|congruence].
    f_equal. apply IH; [done|lia|done].
Qed.

Lemma square_flatten_inj (n : Z) (a b : list (list Z)) :
  square n a -> square n b -> flatten a = flatten b -> a = b.
Proof.
  intros [Hla Ha] [Hlb Hb] Hf.
  apply (rows_concat_inj (Z.to_nat n)); [done|done|congruence|done].
Qed.

Lemma insert_swap_twice {A : Type} (l : list A) (i j : nat) (x y w1 w2 : A) :
  l !! i = Some x -> l !! j = Some y ->
  <[j := x]> (<[i := y]> l) !! i = Some w1 ->
  <[j := x]> (<[i := y]> l) !! j = Some w2 ->
  <[j := w1]> (<[i := w2]> (<[j := x]> (<[i := y]> l))) = l.
Proof.
  intros Hi Hj Hw1 Hw2.
  pose proof (lookup_lt_Some _ _ _ Hi) as Hli.
  pose proof (lookup_lt_Some _ _ _ Hj) as Hlj.
  rewrite list_lookup_insert_eq in Hw2 by (by rewrite length_insert).
  injection Hw2 as <-.
  destruct (decide (i = j)) as [->|Hne].
  - rewrite list_lookup_insert_eq in Hw1 by (by rewrite length_insert).
    injection Hw1 as <-. assert (x = y) as -> by congruence.
    by rewrite !list_insert_insert_eq, list_insert_id.
  - rewrite list_lookup_insert_ne in Hw1 by done.
    rewrite list_lookup_insert_eq in Hw1 by done. injection Hw1 as <-.
    apply list_eq. intros m.
    destruct (decide (m = j)) as [->|Hmj].
    + rewrite list_lookup_insert_eq by (by rewrite !length_insert). done.
    + rewrite list_lookup_insert_ne by done.
      destruct (decide (m = i)) as [->|Hmi].
      * rewrite list_lookup_insert_eq by (by rewrite !length_insert). done.
      * by rewrite !list_lookup_insert_ne by done.
Qed.

(** X5. Swapping the same two cells twice restores the object. *)
Theorem swap_positions_involutive (n : Z) (self : ChessCrypt) (pos1 pos2 : position) :
  square n (sbox self) -> in_board n pos1 -> in_board n pos2 ->
  exists self',
    _swap_positions self pos1 pos2 = Ok self' /\
    _swap_positions self' pos1 pos2 = Ok self.
Proof.
  intros Hsq H1 H2.
  destruct (swap_positions_flat n self pos1 pos2 Hsq H1 H2)
    as (a' & v1 & v2 & Hv1 & Hv2 & Hswap & Hsq' & Hflat).
  destruct (swap_positions_flat n (set_sbox self a') pos1 pos2 Hsq' H1 H2)
    as (a'' & w1 & w2 & Hw1 & Hw2 & Hswap' & Hsq'' & Hflat').
  exists (set_sbox self a'). split; [done|].
  rewrite Hswap'. simpl in *.
  assert (a'' = sbox self) as ->.
  { apply (square_flatten_inj n); [done|done|].
    rewrite Hflat', Hflat. rewrite Hflat in Hw1, Hw2.
    by apply (insert_swap_twice _ _ _ v1 v2). }
  by destruct self.
Qed.

Lemma swap_positions_involutive_witness :
  exists self',
    _swap_positions (initial 4) (0, 3) (2, 1) = Ok self' /\
    _swap_positions self' (0, 3) (2, 1) = Ok (initial 4).
Proof.
  apply (swap_positions_involutive 4 (initial 4) (0, 3) (2, 1)).
  - apply identity_table_square.
  - split; simpl; lia.
  - split; simpl; lia.
Defined.

(** X6. The order of the two positions does not matter to the swap. *)
Theorem swap_positions_symmetric (n : Z) (self : ChessCrypt) (pos1 pos2 : position) :
  square n (sbox self) -> in_board n pos1 -> in_board n pos2 ->
  _swap_positions self pos1 pos2 = _swap_positions self pos2 pos1.
Proof.
  intros Hsq H1 H2.
  destruct (swap_positions_flat n self pos1 pos2 Hsq H1 H2)
    as (a & v1 & v2 & Hv1 & Hv2 & Hswap & Hsqa & Hflat).
  destruct (swap_positions_flat n self pos2 pos1 Hsq H2 H1)
    as (b & w2 & w1 & Hw2 & Hw1 & Hswap' & Hsqb & Hflat').
  rewrite Hswap, Hswap'. do 2 f_equal.
  apply (square_flatten_inj n); [done|done|].
  rewrite Hflat, Hflat'.
  assert (w1 = v1) as -> by congruence. assert (w2 = v2) as -> by congruence.
  destruct (decide (offset n pos1 = offset n pos2)) as [Heq|Hne].
  - rewrite Heq in *. assert (v1 = v2) as -> by congruence. done.
  - by rewrite list_insert_insert_ne.
Qed.

Lemma swap_positions_symmetric_witness :
  _swap_positions (initial 4) (0, 3) (2, 1) = _swap_positions (initial 4) (2, 1) (0, 3).
Proof.
  apply (swap_positions_symmetric 4 (initial 4) (0, 3) (2, 1)).
  - apply identity_table_square.
  - split; simpl; lia.
  - split; simpl; lia.
Defined.

(** ** Negative and out-of-range positions *)

Lemma py_norm_range (n i : Z) : index_ok n i -> 0 <= py_norm n i < n.
Proof.
  unfold index_ok, py_norm. intros H. destruct (Z.ltb_spec i 0); lia.
Qed.

Lemma norm_index_py_norm (i : Z) (len : nat) :
  index_ok (Z.of_nat len) i ->
  norm_index i len = norm_index (py_norm (Z.of_nat len) i) len.
Proof.
  intros H. pose proof (py_norm_range _ _ H) as Hr.
  rewrite (norm_index_nonneg (py_norm _ _)) by done.
  unfold index_ok, py_norm in *. destruct (Z.ltb_spec i 0).
  - apply norm_index_neg. lia.
  - apply norm_index_nonneg. lia.
Qed.

Lemma square_length (n : Z) (a : list (list Z)) (r : Z) :
  square n a -> index_ok n r -> Z.of_nat (length a) = n.
Proof. intros [Hlen _] Hr. unfold index_ok in Hr. lia. Qed.

Lemma getitem2_py_norm (n : Z) (a : list (list Z)) (r c : Z) :
  square n a -> index_ok n r -> index_ok n c ->
  getitem2 a r c = getitem2 a (py_norm n r) (py_norm n c).
Proof.
  intros Hsq Hr Hc. pose proof (square_length n a r Hsq Hr) as Hlen.
  unfold getitem2, getitem at 1 3.
  rewrite (norm_index_py_norm r) by (by rewrite Hlen). rewrite Hlen.
  destruct (norm_index (py_norm n r) (length a)) as [i|]; cbn [bind]; [|done].
  destruct (a !! i) as [row|] eqn:Hrow; cbn [bind]; [|done].
  assert (Z.of_nat (length row) = n) as Hlrow.
  { destruct Hsq as [_ Hrows]. rewrite (Forall_lookup_1 _ _ _ _ Hrows Hrow).
    unfold index_ok in Hr. lia. }
  unfold getitem.
  rewrite (norm_index_py_norm c) by (by rewrite Hlrow). by rewrite Hlrow.
Qed.

Lemma setitem2_py_norm (n : Z) (a : list (list Z)) (r c v : Z) :
  square n a -> index_ok n r -> index_ok n c ->
  setitem2 a r c v = setitem2 a (py_norm n r) (py_norm n c) v.
Proof.
  intros Hsq Hr Hc. pose proof (square_length n a r Hsq Hr) as Hlen.
  unfold setitem2.
  rewrite (norm_index_py_norm r) by (by rewrite Hlen). rewrite Hlen.
  destruct (norm_index (py_norm n r) (length a)) as [i|]; cbn [bind]; [|done].
  destruct (a !! i) as [row|] eqn:Hrow; [|done].
  assert (Z.of_nat (length row) = n) as Hlrow.
  { destruct Hsq as [_ Hrows]. rewrite (Forall_lookup_1 _ _ _ _ Hrows Hrow).
    unfold index_ok in Hr. lia. }
  rewrite (norm_index_py_norm c) by (by rewrite Hlrow). by rewrite Hlrow.
Qed.

Lemma py_norm_pos_in_board (n : Z) (p : position) :
  index_ok n p.1 -> index_ok n p.2 -> in_board n (py_norm_pos n p).
Proof. intros H1 H2. split; simpl; by apply py_norm_range. Qed.

Lemma getitem2_index_error (n : Z) (a : list (list Z)) (r c : Z) :
  square n a -> ~ (index_ok n r /\ index_ok n c) ->
  getitem2 a r c = Raise IndexError.
Proof.
  intros Hsq Hbad.
  destruct (decide (index_ok n r)) as [Hr|Hr].
  - assert (~ index_ok n c) as Hc by tauto.
    unfold getitem2. destruct (getitem a r) as [row|e] eqn:Hrow; cbn [bind].
    + apply getitem_out.
      assert (length row = Z.to_nat n) as ->.
      { apply getitem_elem_of in Hrow. destruct Hsq as [_ Hrows].
        by apply (proj1 (Forall_forall _ _) Hrows). }
      unfold index_ok in *. lia.
    + unfold getitem in Hrow.
      destruct (norm_index r (length a)) as [i|e'] eqn:Hi; cbn [bind] in Hrow.
      * destruct (a !! i); congruence.
      * unfold norm_index in Hi.
        repeat destruct (_ && _) in Hi; congruence.
  - apply getitem2_row_out. destruct Hsq as [Hlen _].
    unfold index_ok in Hr. lia.
Qed.

Lemma getitem2_index_ok (n : Z) (a : list (list Z)) (r c : Z) :
  square n a -> index_ok n r -> index_ok n c ->
  exists v, getitem2 a r c = Ok v.
Proof.
  intros Hsq Hr Hc. rewrite (getitem2_py_norm n) by done.
  destruct (getitem2_flat n a (py_norm n r, py_norm n c) Hsq) as (v & Hv & _).
  - by apply (py_norm_pos_in_board n (r, c)).
  - by exists v.
Qed.

Lemma swap_positions_py_norm (n : Z) (self : ChessCrypt) (pos1 pos2 : position) :
  square n (sbox self) ->
  index_ok n pos1.1 -> index_ok n pos1.2 ->
  index_ok n pos2.1 -> index_ok n pos2.2 ->
  _swap_positions self pos1 pos2
  = _swap_positions self (py_norm_pos n pos1) (py_norm_pos n pos2).
Proof.
  intros Hsq H11 H12 H21 H22. unfold _swap_positions. cbn [py_norm_pos fst snd].
  rewrite <- !(getitem2_py_norm n) by done.
  destruct (getitem2 (sbox self) pos2.1 pos2.2) as [v2|]; cbn [bind]; [|done].
  destruct (getitem2 (sbox self) pos1.1 pos1.2) as [v1|]; cbn [bind]; [|done].
  rewrite <- (setitem2_py_norm n) by done.
  destruct (setitem2_flat n (sbox self) (py_norm_pos n pos1) v2 Hsq)
    as (a1 & Ha1 & Hsq1 & _); [by apply py_norm_pos_in_board|].
  cbn [py_norm_pos fst snd] in Ha1. rewrite <- (setitem2_py_norm n) in Ha1 by done.
  rewrite Ha1. cbn [bind]. by rewrite <- (setitem2_py_norm n) by done.
Qed.

(** X7. On an [n] by [n] table [_swap_positions] succeeds exactly when the
    four coordinates lie in [[-n, n)], a negative coordinate standing for the
    cell [n] places further on; with any coordinate outside that range it
    raises [IndexError]. *)
Theorem swap_positions_index_error (n : Z) (self : ChessCrypt) (pos1 pos2 : position) :
  square n (sbox self) ->
  (index_ok n pos1.1 /\ index_ok n pos1.2 /\ index_ok n pos2.1 /\ index_ok n pos2.2 ->
   exists self',
     _swap_positions self pos1 pos2 = Ok self' /\
     _swap_positions self (py_norm_pos n pos1) (py_norm_pos n pos2) = Ok self') /\
  (~ (index_ok n pos1.1 /\ index_ok n pos1.2 /\ index_ok n pos2.1 /\ index_ok n pos2.2) ->
   _swap_positions self pos1 pos2 = Raise IndexError).
Proof.
  intros Hsq. split.
  - intros (H11 & H12 & H21 & H22).
    rewrite (swap_positions_py_norm n) by done.
    destruct (swap_positions_flat n self (py_norm_pos n pos1) (py_norm_pos n pos2) Hsq)
      as (a' & _ & _ & _ & _ & Hswap & _); [by apply py_norm_pos_in_board ..|].
    by exists (set_sbox self a').
  - intros Hbad. unfold _swap_positions.
    destruct (decide (index_ok n pos2.1 /\ index_ok n pos2.2)) as [[H21 H22]|H2].
    + destruct (getitem2_index_ok n (sbox self) _ _ Hsq H21 H22) as [v2 ->].
      cbn [bind]. rewrite (getitem2_index_error n) by (done || tauto). done.
    + by rewrite (getitem2_index_error n).
Qed.

Lemma swap_positions_index_error_witness :
  (index_ok 3 (-1, 0).1 /\ index_ok 3 (-1, 0).2 /\
   index_ok 3 (1, -3).1 /\ index_ok 3 (1, -3).2 ->
   exists self',
     _swap_positions (initial 3) (-1, 0) (1, -3) = Ok self' /\
     _swap_positions (initial 3) (py_norm_pos 3 (-1, 0)) (py_norm_pos 3 (1, -3))
     = Ok self') /\
  (~ (index_ok 3 (-1, 0).1 /\ index_ok 3 (-1, 0).2 /\
      index_ok 3 (1, -3).1 /\ index_ok 3 (1, -3).2) ->
   _swap_positions (initial 3) (-1, 0) (1, -3) = Raise IndexError).
Proof.
  apply (swap_positions_index_error 3 (initial 3) (-1, 0) (1, -3)).
  apply identity_table_square.
Defined.

(** ** Geometry of the move sets *)

Lemma mod_close_inj (n u v : Z) :
  0 < n -> u mod n = v mod n -> - n < u - v < n -> u = v.
Proof.
  intros Hn Heq Hclose.
  pose proof (Z.div_mod u n ltac:(lia)) as Hu.
  pose proof (Z.div_mod v n ltac:(lia)) as Hv.
  rewrite Heq in Hu.
  assert (u - v = n * (u / n - v / n)) as Hd by lia.
  assert (u / n - v / n = 0) by nia. lia.
Qed.

Lemma wrap_pos_close_inj (n : Z) (p q : position) :
  0 < n -> wrap_pos n p = wrap_pos n q ->
  - n < p.1 - q.1 < n -> - n < p.2 - q.2 < n -> p = q.
Proof.
  destruct p as [x y], q as [x' y']. unfold wrap_pos. simpl.
  intros Hn Heq H1 H2. rewrite !wrap_mod in Heq by done.
  injection Heq as Hx Hy.
  apply mod_close_inj in Hx; [|done|done].
  apply mod_close_inj in Hy; [|done|done]. congruence.
Qed.

Lemma wrap_pos_on_board (n : Z) (p : position) :
  in_board n p -> wrap_pos n p = p.
Proof.
  destruct p as [x y]. intros [Hx Hy]. simpl in *. unfold wrap_pos. simpl.
  rewrite !wrap_mod by lia. by rewrite !Z.mod_small by lia.
Qed.

(** A wrapped offset position differs from another one (or from the start)
    when the two raw positions differ by less than the side. *)
Ltac wrap_neq n Hpos :=
  let Heq := fresh "Heq" in
  intros Heq;
  try rewrite <- (wrap_pos_on_board n _ Hpos) in Heq at 1;
  apply wrap_pos_close_inj in Heq; simpl; [|lia ..];
  injection Heq; lia.

(** X8. On a board of side at least 3 the eight king moves from a position
    on the board are eight different squares, none of them the position
    itself. *)
Theorem king_moves_distinct (self : ChessCrypt) (pos : position) :
  3 <= box_size self -> in_board (box_size self) pos ->
  exists moves,
    _get_king_moves self pos = Ok moves /\ NoDup moves /\ pos ∉ moves.
Proof.
  intros Hn Hpos. exists (wrap_pos (box_size self) <$> king_offsets pos).
  split; [apply king_moves_wrap; lia|].
  destruct pos as [x y]. unfold king_offsets. simpl.
  rewrite !NoDup_cons, !not_elem_of_cons.
  split_and!; try apply NoDup_nil_2; try apply not_elem_of_nil;
    wrap_neq (box_size self) Hpos.
Qed.

Lemma king_moves_distinct_witness :
  exists moves,
    _get_king_moves (initial 3) (0, 2) = Ok moves /\ NoDup moves /\ (0, 2) ∉ moves.
Proof.
  apply (king_moves_distinct (initial 3) (0, 2)); [simpl; lia | split; simpl; lia].
Defined.

(** X9. On a board of side at least 5 the eight knight moves from a position
    on the board are eight different squares, none of them the position
    itself. *)
Theorem knight_moves_distinct (self : ChessCrypt) (pos : position) :
  5 <= box_size self -> in_board (box_size self) pos ->
  exists moves,
    _get_knight_moves self pos = Ok moves /\ NoDup moves /\ pos ∉ moves.
Proof.
  intros Hn Hpos. exists (wrap_pos (box_size self) <$> knight_offsets pos).
  split; [apply knight_moves_wrap; lia|].
  destruct pos as [x y]. unfold knight_offsets. simpl.
  rewrite !NoDup_cons, !not_elem_of_cons.
  split_and!; try apply NoDup_nil_2; try apply not_elem_of_nil;
    wrap_neq (box_size self) Hpos.
Qed.

Lemma knight_moves_distinct_witness :
  exists moves,
    _get_knight_moves (initial 5) (4, 0) = Ok moves /\ NoDup moves /\ (4, 0) ∉ moves.
Proof.
  apply (knight_moves_distinct (initial 5) (4, 0)); [simpl; lia | split; simpl; lia].
Defined.

Lemma independent_walk_cycle (n : Z) (d p : position) :
  in_board n p -> (d.1 = 1 \/ d.1 = -1) ->
  length (independent_walk n d p (Z.to_nat n)) = Z.to_nat n /\
  NoDup (independent_walk n d p (Z.to_nat n)) /\
  last (independent_walk n d p (Z.to_nat n)) = Some p.
Proof.
  destruct p as [x y], d as [d1 d2]. intros [Hx Hy] Hd. simpl in *.
  assert (0 < n) as Hn by lia.
  unfold independent_walk. simpl. rewrite Z2Nat.id by lia. split_and!.
  - by rewrite length_fmap, length_seqZ.
  - apply NoDup_fmap_2_strong; [|apply NoDup_seqZ].
    intros k k' Hk Hk' Heq. apply elem_of_seqZ in Hk, Hk'.
    injection Heq as Heq _.
    apply mod_close_inj in Heq; [|done|]; destruct Hd as [-> | ->]; lia.
  - rewrite fmap_last.
    replace n with (Z.of_nat (Datatypes.S (Z.to_nat (n - 1)))) at 1 by lia.
    rewrite seqZ_S, last_snoc. simpl. f_equal.
    replace (1 + Z.of_nat (Z.to_nat (n - 1))) with n by lia.
    f_equal.
    + rewrite (Z.mul_comm n d1), Z.mod_add by lia. apply Z.mod_small. lia.
    + rewrite (Z.mul_comm n d2), Z.mod_add by lia. apply Z.mod_small. lia.
Qed.

Lemma independent_walk_lookup (n : Z) (d p : position) (steps : nat) (k : Z) :
  1 <= k <= Z.of_nat steps ->
  independent_walk n d p steps !! Z.to_nat (k - 1)
  = Some ((p.1 + k * d.1) mod n, (p.2 + k * d.2) mod n).
Proof.
  intros Hk. unfold independent_walk.
  rewrite list_lookup_fmap, lookup_seqZ_lt by lia. simpl.
  by replace (1 + Z.of_nat (Z.to_nat (k - 1))) with k by lia.
Qed.

Lemma independent_walk_facts (n : Z) (d p : position) :
  in_board n p -> (d.1 = 1 \/ d.1 = -1) ->
  let w := independent_walk n d p (Z.to_nat n) in
  length w = Z.to_nat n /\
  (forall k, 1 <= k <= n ->
             w !! Z.to_nat (k - 1) = Some ((p.1 + k * d.1) mod n, (p.2 + k * d.2) mod n)) /\
  NoDup w /\ last w = Some p.
Proof.
  intros Hp Hd. cbv zeta.
  destruct (independent_walk_cycle n d p Hp Hd) as (Hlen & Hnd & Hlast).
  split_and!; try done.
  intros k Hk. apply independent_walk_lookup. lia.
Qed.

(** X10. From a position on the board the bishop generator returns four
    walks, one per diagonal direction, in the order [(1,1)], [(1,-1)],
    [(-1,1)], [(-1,-1)]: entry [k - 1] of the walk in direction [d] is
    [(pos + k * d) mod side_length]. Each walk has [side_length] squares,
    visits no square twice, and ends on the position it started from: the
    bishop's own square is in its move set. *)
Theorem bishop_walks_cycle (self : ChessCrypt) (pos : position) :
  in_board (box_size self) pos ->
  _get_bishop_moves self pos
  = Ok (independent_walk (box_size self) (1, 1) pos (Z.to_nat (box_size self)) ++
        independent_walk (box_size self) (1, -1) pos (Z.to_nat (box_size self)) ++
        independent_walk (box_size self) (-1, 1) pos (Z.to_nat (box_size self)) ++
        independent_walk (box_size self) (-1, -1) pos (Z.to_nat (box_size self))) /\
  Forall (fun d =>
            let w := independent_walk (box_size self) d pos (Z.to_nat (box_size self)) in
            length w = Z.to_nat (box_size self) /\
            (forall k, 1 <= k <= box_size self ->
                       w !! Z.to_nat (k - 1)
                       = Some ((pos.1 + k * d.1) mod box_size self,
                               (pos.2 + k * d.2) mod box_size self)) /\
            NoDup w /\ last w = Some pos)
    [(1, 1); (1, -1); (-1, 1); (-1, -1)].
Proof.
  intros Hpos. assert (0 < box_size self) as Hn by (destruct Hpos; lia).
  split.
  - rewrite bishop_moves_cumulative, bishop_cumulative_independent by done.
    unfold independent_bishop_moves. simpl. by rewrite app_nil_r.
  - repeat (constructor; [by apply independent_walk_facts; [|simpl; lia]|]).
    constructor.
Qed.

Lemma bishop_walks_cycle_witness :
  _get_bishop_moves (initial 16) (15, 15)
  = Ok (independent_walk (box_size (initial 16)) (1, 1) (15, 15)
          (Z.to_nat (box_size (initial 16))) ++
        independent_walk (box_size (initial 16)) (1, -1) (15, 15)
          (Z.to_nat (box_size (initial 16))) ++
        independent_walk (box_size (initial 16)) (-1, 1) (15, 15)
          (Z.to_nat (box_size (initial 16))) ++
        independent_walk (box_size (initial 16)) (-1, -1) (15, 15)
          (Z.to_nat (box_size (initial 16)))) /\
  Forall (fun d =>
            let w := independent_walk (box_size (initial 16)) d (15, 15)
                       (Z.to_nat (box_size (initial 16))) in
            length w = Z.to_nat (box_size (initial 16)) /\
            (forall k, 1 <= k <= box_size (initial 16) ->
                       w !! Z.to_nat (k - 1)
                       = Some (((15, 15).1 + k * d.1) mod box_size (initial 16),
                               ((15, 15).2 + k * d.2) mod box_size (initial 16))) /\
            NoDup w /\ last w = Some (15, 15))
    [(1, 1); (1, -1); (-1, 1); (-1, -1)].
Proof. apply (bishop_walks_cycle (initial 16) (15, 15)). split; simpl; lia. Defined.

(** ** The cursors *)

Lemma swap_positions_fields (self self' : ChessCrypt) (pos1 pos2 : position) :
  _swap_positions self pos1 pos2 = Ok self' ->
  box_size self' = box_size self /\ forall q, get_pos q self' = get_pos q self.
Proof.
  unfold _swap_positions.
  destruct (getitem2 (sbox self) pos2.1 pos2.2) as [v2|]; cbn [bind]; [|done].
  destruct (getitem2 (sbox self) pos1.1 pos1.2) as [v1|]; cbn [bind]; [|done].
  destruct (setitem2 (sbox self) pos1.1 pos1.2 v2) as [a1|]; cbn [bind]; [|done].
  destruct (setitem2 a1 pos2.1 pos2.2 v1) as [a2|]; cbn [bind]; [|done].
  intros [= <-]. split; [done|]. by intros [].
Qed.

Lemma get_moves_box (p : piece) (s t : ChessCrypt) (pos : position) :
  box_size s = box_size t -> get_moves p s pos = get_moves p t pos.
Proof.
  intros H. destruct p; simpl;
    unfold _get_knight_moves, _get_king_moves, _get_bishop_moves; by rewrite H.
Qed.

Lemma move_piece_cursor (rand : nat -> Z -> Z) (p : piece) (self self' : ChessCrypt)
  (k k' : nat) :
  move_piece rand p (self, k) = Ok (self', k') ->
  exists moves new_pos,
    get_moves p self (get_pos p self) = Ok moves /\
    getitem moves (rand k (Z.of_nat (length moves))) = Ok new_pos /\
    k' = Datatypes.S k /\
    box_size self' = box_size self /\
    get_pos p self' = new_pos /\
    forall q, q <> p -> get_pos q self' = get_pos q self.
Proof.
  unfold move_piece.
  destruct (get_moves p self (get_pos p self)) as [moves|]; cbn [bind]; [|done].
  unfold randint. destruct (Z.of_nat (length moves) <=? 0); cbn [bind]; [done|].
  destruct (getitem moves _) as [new_pos|] eqn:Hnew; cbn [bind]; [|done].
  destruct (_swap_positions self _ new_pos) as [s1|] eqn:Hswap; cbn [bind]; [|done].
  intros [= <- <-]. apply swap_positions_fields in Hswap as [Hbox Hcur].
  exists moves, new_pos. split_and!; try done.
  - by destruct p.
  - by destruct p.
  - intros q Hq. rewrite <- Hcur. by destruct p, q.
Qed.

(** X11. In one iteration every piece advances to one of its own moves from
    the square it stood on: the new knight, king and bishop cursors are
    entries of the move sets computed from the old ones; the side length
    does not change and three draws are made. *)
Theorem iteration_moves_legal (rand : nat -> Z -> Z) (self self' : ChessCrypt)
  (k k' : nat) :
  generate_sbox rand self 1 k = Ok (self', k') ->
  exists knight_moves king_moves bishop_moves,
    _get_knight_moves self (knight_pos self) = Ok knight_moves /\
    knight_pos self' ∈ knight_moves /\
    _get_king_moves self (king_pos self) = Ok king_moves /\
    king_pos self' ∈ king_moves /\
    _get_bishop_moves self (bishop_pos self) = Ok bishop_moves /\
    bishop_pos self' ∈ bishop_moves /\
    box_size self' = box_size self /\
    k' = (3 + k)%nat.
Proof.
  unfold generate_sbox. change (Z.to_nat 1) with 1%nat. cbn [repeat_m].
  unfold iteration.
  destruct (move_piece rand Knight (self, k)) as [[s1 k1]|] eqn:E1; cbn [bind]; [|done].
  destruct (move_piece rand King (s1, k1)) as [[s2 k2]|] eqn:E2; cbn [bind]; [|done].
  destruct (move_piece rand Bishop (s2, k2)) as [[s3 k3]|] eqn:E3; cbn [bind]; [|done].
  intros [= <- <-].
  apply move_piece_cursor in E1 as (mk & nk & Hmk & Hnk & -> & Hb1 & Hp1 & Ho1).
  apply move_piece_cursor in E2 as (mg & ng & Hmg & Hng & -> & Hb2 & Hp2 & Ho2).
  apply move_piece_cursor in E3 as (mb & nb & Hmb & Hnb & -> & Hb3 & Hp3 & Ho3).
  apply getitem_elem_of in Hnk, Hng, Hnb.
  pose proof (Ho1 King ltac:(done)) as Hk1. pose proof (Ho1 Bishop ltac:(done)) as Hbi1.
  pose proof (Ho2 Knight ltac:(done)) as Hkn2. pose proof (Ho2 Bishop ltac:(done)) as Hbi2.
  pose proof (Ho3 Knight ltac:(done)) as Hkn3. pose proof (Ho3 King ltac:(done)) as Hk3.
  simpl in *.
  rewrite (get_moves_box King s1 self) in Hmg by done.
  rewrite (get_moves_box Bishop s2 self) in Hmb by congruence.
  simpl in *. rewrite Hk1 in Hmg. rewrite Hbi2, Hbi1 in Hmb.
  exists mk, mg, mb. split_and!; try done; try congruence.
Qed.

Lemma iteration_moves_legal_witness :
  exists knight_moves king_moves bishop_moves,
    _get_knight_moves (initial 3) (knight_pos (initial 3)) = Ok knight_moves /\
    knight_pos
      {| box_size := 3; sbox := [[6; 1; 4]; [3; 2; 5]; [0; 7; 8]];
         king_pos := (2, 0); knight_pos := (0, 2); bishop_pos := (2, 2) |}
    ∈ knight_moves /\
    _get_king_moves (initial 3) (king_pos (initial 3)) = Ok king_moves /\
    king_pos
      {| box_size := 3; sbox := [[6; 1; 4]; [3; 2; 5]; [0; 7; 8]];
         king_pos := (2, 0); knight_pos := (0, 2); bishop_pos := (2, 2) |}
    ∈ king_moves /\
    _get_bishop_moves (initial 3) (bishop_pos (initial 3)) = Ok bishop_moves /\
    bishop_pos
      {| box_size := 3; sbox := [[6; 1; 4]; [3; 2; 5]; [0; 7; 8]];
         king_pos := (2, 0); knight_pos := (0, 2); bishop_pos := (2, 2) |}
    ∈ bishop_moves /\
    box_size
      {| box_size := 3; sbox := [[6; 1; 4]; [3; 2; 5]; [0; 7; 8]];
         king_pos := (2, 0); knight_pos := (0, 2); bishop_pos := (2, 2) |}
    = box_size (initial 3) /\
    3%nat = (3 + 0)%nat.
Proof.
  apply (iteration_moves_legal (fun k high => Z.of_nat k mod high) (initial 3)).
  reflexivity.
Defined.

Lemma move_piece_same_cursors (rand : nat -> Z -> Z) (p : piece)
  (s t s' t' : ChessCrypt) (k k1 k2 : nat) :
  same_cursors s t ->
  move_piece rand p (s, k) = Ok (s', k1) ->
  move_piece rand p (t, k) = Ok (t', k2) ->
  same_cursors s' t' /\ k1 = k2.
Proof.
  intros [Hbox Hcur] Es Et.
  apply move_piece_cursor in Es as (ms & ns & Hms & Hns & -> & Hbs & Hps & Hos).
  apply move_piece_cursor in Et as (mt & nt & Hmt & Hnt & -> & Hbt & Hpt & Hot).
  rewrite (get_moves_box p s t) in Hms by done. rewrite Hcur in Hms.
  assert (ms = mt) as -> by congruence.
  assert (ns = nt) as -> by congruence.
  split; [|done]. split; [congruence|].
  intros q.
  assert (q = p \/ q <> p) as [->|Hq] by (destruct p, q; (by left) || (by right));
    [congruence|].
  by rewrite Hos, Hot, Hcur by done.
Qed.

Lemma iteration_same_cursors (rand : nat -> Z -> Z) (s t s' t' : ChessCrypt)
  (k k1 k2 : nat) :
  same_cursors s t ->
  iteration rand (s, k) = Ok (s', k1) ->
  iteration rand (t, k) = Ok (t', k2) ->
  same_cursors s' t' /\ k1 = k2.
Proof.
  intros Hsame. unfold iteration.
  destruct (move_piece rand Knight (s, k)) as [[sa ka]|] eqn:Ea; cbn [bind]; [|done].
  destruct (move_piece rand Knight (t, k)) as [[ta ka']|] eqn:Ea'; cbn [bind]; [|done].
  destruct (move_piece_same_cursors _ _ _ _ _ _ _ _ _ Hsame Ea Ea') as [Ha <-].
  destruct (move_piece rand King (sa, ka)) as [[sb kb]|] eqn:Eb; cbn [bind]; [|done].
  destruct (move_piece rand King (ta, ka)) as [[tb kb']|] eqn:Eb'; cbn [bind]; [|done].
  destruct (move_piece_same_cursors _ _ _ _ _ _ _ _ _ Ha Eb Eb') as [Hb <-].
  by apply move_piece_same_cursors.
Qed.

Lemma walk_loop_same_cursors (rand : nat -> Z -> Z) (count : nat)
  (s t s' t' : ChessCrypt) (k k1 k2 : nat) :
  same_cursors s t ->
  repeat_m count (iteration rand) (s, k) = Ok (s', k1) ->
  repeat_m count (iteration rand) (t, k) = Ok (t', k2) ->
  same_cursors s' t' /\ k1 = k2.
Proof.
  revert s t k. induction count as [|count IH]; intros s t k Hsame; cbn [repeat_m].
  - by intros [= <- <-] [= <- <-].
  - destruct (iteration rand (s, k)) as [[sa ka]|] eqn:Ea; cbn [bind]; [|done].
    destruct (iteration rand (t, k)) as [[ta ka']|] eqn:Ea'; cbn [bind]; [|done].
    destruct (iteration_same_cursors _ _ _ _ _ _ _ _ Hsame Ea Ea') as [Ha <-].
    by apply IH.
Qed.

(** X12. Positions, not values, drive the walk: two objects with the same
    side length and the same three cursors, run for the same number of
    iterations on the same draws, end with the same three cursors and the
    same number of draws made, whatever their tables hold. *)
Theorem cursors_ignore_table (rand : nat -> Z -> Z) (self1 self2 s1 s2 : ChessCrypt)
  (iterations : Z) (k k1 k2 : nat) :
  box_size self1 = box_size self2 ->
  king_pos self1 = king_pos self2 ->
  knight_pos self1 = knight_pos self2 ->
  bishop_pos self1 = bishop_pos self2 ->
  generate_sbox rand self1 iterations k = Ok (s1, k1) ->
  generate_sbox rand self2 iterations k = Ok (s2, k2) ->
  king_pos s1 = king_pos s2 /\
  knight_pos s1 = knight_pos s2 /\
  bishop_pos s1 = bishop_pos s2 /\
  k1 = k2.
Proof.
  intros Hbox Hking Hknight Hbishop E1 E2.
  assert (same_cursors self1 self2) as Hsame.
  { split; [done|]. by intros []. }
  destruct (walk_loop_same_cursors _ _ _ _ _ _ _ _ _ Hsame E1 E2) as [[_ Hcur] ->].
  split_and!; [apply (Hcur King) | apply (Hcur Knight) | apply (Hcur Bishop) | done].
Qed.

Lemma cursors_ignore_table_witness :
  king_pos
    {| box_size := 3; sbox := [[6; 1; 2]; [3; 4; 5]; [7; 0; 8]];
       king_pos := (2, 1); knight_pos := (1, 1); bishop_pos := (2, 2) |}
  = king_pos
      {| box_size := 3; sbox := [[2; 7; 6]; [5; 4; 3]; [1; 8; 0]];
         king_pos := (2, 1); knight_pos := (1, 1); bishop_pos := (2, 2) |} /\
  knight_pos
    {| box_size := 3; sbox := [[6; 1; 2]; [3; 4; 5]; [7; 0; 8]];
       king_pos := (2, 1); knight_pos := (1, 1); bishop_pos := (2, 2) |}
  = knight_pos
      {| box_size := 3; sbox := [[2; 7; 6]; [5; 4; 3]; [1; 8; 0]];
         king_pos := (2, 1); knight_pos := (1, 1); bishop_pos := (2, 2) |} /\
  bishop_pos
    {| box_size := 3; sbox := [[6; 1; 2]; [3; 4; 5]; [7; 0; 8]];
       king_pos := (2, 1); knight_pos := (1, 1); bishop_pos := (2, 2) |}
  = bishop_pos
      {| box_size := 3; sbox := [[2; 7; 6]; [5; 4; 3]; [1; 8; 0]];
         king_pos := (2, 1); knight_pos := (1, 1); bishop_pos := (2, 2) |} /\
  6%nat = 6%nat.
Proof.
  apply (cursors_ignore_table (fun k high => Z.of_nat k mod high)
           (initial 3)
           (set_sbox (initial 3) [[8; 7; 6]; [5; 4; 3]; [2; 1; 0]])
           _ _ 2 0); reflexivity.
Defined.

(** ** Diagnostics *)

Lemma length_remove_dups_le (l : list Z) : (length (remove_dups l) <= length l)%nat.
Proof.
  induction l as [|x l IH]; simpl; [done|].
  destruct (decide_rel elem_of x l); simpl; lia.
Qed.

Lemma length_remove_dups_NoDup (l : list Z) :
  length (remove_dups l) = length l <-> NoDup l.
Proof.
  induction l as [|x l IH]; simpl.
  - split; [constructor|done].
  - pose proof (length_remove_dups_le l).
    destruct (decide_rel elem_of x l) as [Hin|Hnin]; simpl.
    + split; [lia|]. intros Hnd. apply NoDup_cons in Hnd as [? _]. done.
    + rewrite NoDup_cons. split.
      * intros Hlen. split; [done|]. apply IH. lia.
      * intros [_ Hnd]. f_equal. by apply IH.
Qed.

Lemma length_np_unique (l : list Z) :
  length (np_unique l) = length (remove_dups l).
Proof. unfold np_unique. by rewrite merge_sort_Permutation. Qed.

(** [np.unique] as numpy documents it: sorted, without repeats, with the
    values of its argument. *)
Lemma np_unique_sorted_distinct (l : list Z) :
  Sorted Z.le (np_unique l) /\ NoDup (np_unique l) /\
  forall x, x ∈ np_unique l <-> x ∈ l.
Proof.
  unfold np_unique. split_and!.
  - apply (Sorted_merge_sort Z.le).
  - rewrite merge_sort_Permutation. apply NoDup_remove_dups.
  - intros x. rewrite merge_sort_Permutation. apply elem_of_remove_dups.
Qed.

Lemma foldl_min_spec (l : list Z) (x : Z) :
  foldl Z.min x l ∈ x :: l /\ forall y, y ∈ x :: l -> foldl Z.min x l <= y.
Proof.
  revert x. induction l as [|z l IH]; intros x; simpl.
  - split; [apply list_elem_of_here|]. intros y Hy.
    apply list_elem_of_singleton in Hy. lia.
  - destruct (IH (Z.min x z)) as [Hin Hle]. split.
    + apply elem_of_cons in Hin as [Heq|Hin].
      * rewrite Heq. destruct (Z.min_spec x z) as [[_ ->]|[_ ->]];
          [apply list_elem_of_here | apply list_elem_of_further, list_elem_of_here].
      * by do 2 apply list_elem_of_further.
    + intros y Hy.
      pose proof (Hle (Z.min x z) (list_elem_of_here _ _)) as Hm.
      apply elem_of_cons in Hy as [->|Hy]; [lia|].
      apply elem_of_cons in Hy as [->|Hy]; [lia|].
      apply Hle. by apply list_elem_of_further.
Qed.

Lemma foldl_max_spec (l : list Z) (x : Z) :
  foldl Z.max x l ∈ x :: l /\ forall y, y ∈ x :: l -> y <= foldl Z.max x l.
Proof.
  revert x. induction l as [|z l IH]; intros x; simpl.
  - split; [apply list_elem_of_here|]. intros y Hy.
    apply list_elem_of_singleton in Hy. lia.
  - destruct (IH (Z.max x z)) as [Hin Hle]. split.
    + apply elem_of_cons in Hin as [Heq|Hin].
      * rewrite Heq. destruct (Z.max_spec x z) as [[_ ->]|[_ ->]];
          [apply list_elem_of_further, list_elem_of_here | apply list_elem_of_here].
      * by do 2 apply list_elem_of_further.
    + intros y Hy.
      pose proof (Hle (Z.max x z) (list_elem_of_here _ _)) as Hm.
      apply elem_of_cons in Hy as [->|Hy]; [lia|].
      apply elem_of_cons in Hy as [->|Hy]; [lia|].
      apply Hle. by apply list_elem_of_further.
Qed.

Lemma get_sbox_stats_nonempty (self : ChessCrypt) :
  flatten (sbox self) <> [] ->
  exists st,
    get_sbox_stats self = Ok st /\
    (is_bijective st = true <-> NoDup (flatten (sbox self))) /\
    min_value st ∈ flatten (sbox self) /\
    max_value st ∈ flatten (sbox self) /\
    forall v, v ∈ flatten (sbox self) -> min_value st <= v <= max_value st.
Proof.
  intros Hne. unfold get_sbox_stats.
  destruct (flatten (sbox self)) as [|x l] eqn:Hflat; [done|].
  cbn [np_min np_max bind].
  eexists. split; [reflexivity|]. cbn [is_bijective min_value max_value].
  destruct (foldl_min_spec l x) as [Hmin Hminle].
  destruct (foldl_max_spec l x) as [Hmax Hmaxle].
  split_and!; try done.
  - rewrite Nat.eqb_eq, length_np_unique. apply length_remove_dups_NoDup.
  - intros v Hv. split; [by apply Hminle | by apply Hmaxle].
Qed.

(** X13. [get_sbox_stats] raises [ValueError] on a table without cells (the
    minimum of an empty array); on any other table it returns, with
    [is_bijective] true exactly when no value occurs twice in the table, and
    [min_value] and [max_value] values of the table that bound all the
    others. *)
Theorem get_sbox_stats_spec (self : ChessCrypt) :
  (flatten (sbox self) = [] -> get_sbox_stats self = Raise ValueError) /\
  (flatten (sbox self) <> [] ->
   exists st,
     get_sbox_stats self = Ok st /\
     (is_bijective st = true <-> NoDup (flatten (sbox self))) /\
     min_value st ∈ flatten (sbox self) /\
     max_value st ∈ flatten (sbox self) /\
     forall v, v ∈ flatten (sbox self) -> min_value st <= v <= max_value st).
Proof.
  split.
  - intros Hnil. unfold get_sbox_stats. by rewrite Hnil.
  - apply get_sbox_stats_nonempty.
Qed.

(** X14. After a run on a fresh object of side [n >= 1] the statistics
    report a bijective table with minimum [0] and maximum [n^2 - 1]. *)
Theorem get_sbox_stats_after_run (rand : nat -> Z -> Z) (n iterations : Z) (k : nat) :
  1 <= n -> rand_valid rand ->
  exists self0 self' k',
    __init__ n = Ok self0 /\
    generate_sbox rand self0 iterations k = Ok (self', k') /\
    get_sbox_stats self'
    = Ok {| is_bijective := true; min_value := 0; max_value := n * n - 1 |}.
Proof.
  intros Hn Hrand.
  destruct (generate_walk_inv rand n iterations k (initial n) Hrand)
    as (self' & R & Hinv); [lia | apply initial_walk_inv; lia |].
  exists (initial n), self', (3 * Z.to_nat iterations + k)%nat.
  split; [apply init_ok; lia|]. split; [done|].
  destruct Hinv as (_ & _ & _ & _ & _ & Hperm).
  assert (forall v, v ∈ flatten (sbox self') <-> 0 <= v < n * n) as Hmem.
  { intros v. rewrite Hperm, elem_of_seqZ. lia. }
  destruct (get_sbox_stats_nonempty self') as (st & Hst & Hbij & Hmin & Hmax & Hbound).
  { intros Hnil. assert (0 ∈ flatten (sbox self')) as H0 by (apply Hmem; nia).
    rewrite Hnil in H0. by apply elem_of_nil in H0. }
  rewrite Hst. f_equal.
  assert (is_bijective st = true) as Hb.
  { apply Hbij. rewrite Hperm. apply NoDup_seqZ. }
  apply Hmem in Hmin, Hmax.
  pose proof (Hbound 0 ltac:(apply Hmem; nia)).
  pose proof (Hbound (n * n - 1) ltac:(apply Hmem; nia)).
  destruct st as [b lo hi]. simpl in *. f_equal; [done|lia|lia].
Qed.

Lemma get_sbox_stats_after_run_witness :
  exists self0 self' k',
    __init__ 16 = Ok self0 /\
    generate_sbox (fun k high => Z.of_nat k mod high) self0 1000 0 = Ok (self', k') /\
    get_sbox_stats self'
    = Ok {| is_bijective := true; min_value := 0; max_value := 16 * 16 - 1 |}.
Proof.
  apply (get_sbox_stats_after_run (fun k high => Z.of_nat k mod high) 16 1000 0);
    [lia | exact rand_cycle_valid].
Defined.

Lemma get_sbox_stats_spec_witness :
  (flatten (sbox (initial 0)) = [] -> get_sbox_stats (initial 0) = Raise ValueError) /\
  (flatten (sbox (initial 0)) <> [] ->
   exists st,
     get_sbox_stats (initial 0) = Ok st /\
     (is_bijective st = true <-> NoDup (flatten (sbox (initial 0)))) /\
     min_value st ∈ flatten (sbox (initial 0)) /\
     max_value st ∈ flatten (sbox (initial 0)) /\
     forall v, v ∈ flatten (sbox (initial 0)) -> min_value st <= v <= max_value st).
Proof. apply (get_sbox_stats_spec (initial 0)). Defined.

(** ** Runs on an arbitrary table *)

Lemma move_piece_permutes (rand : nat -> Z -> Z) (n : Z) (p : piece)
  (self : ChessCrypt) (k : nat) :
  rand_valid rand -> board_inv n self ->
  exists self',
    move_piece rand p (self, k) = Ok (self', Datatypes.S k) /\
    board_inv n self' /\
    flatten (sbox self') ≡ₚ flatten (sbox self).
Proof.
  intros Hrand Hinv.
  pose proof Hinv as (Hbox & Hsq & Hk & Hkn & Hb).
  assert (0 < n) as Hn by (destruct Hk; lia).
  assert (in_board n (get_pos p self)) as Hcur by (by destruct p).
  destruct (get_moves_ok p self (get_pos p self)) as (moves & Hmoves & Hin & Hlen);
    [lia|].
  rewrite Hbox in Hin.
  pose proof (Hrand k _ Hlen) as Hdraw.
  destruct (getitem_in_range moves _ Hdraw) as [new_pos Hnew].
  assert (in_board n new_pos) as Hnewin.
  { apply getitem_elem_of in Hnew. by apply (proj1 (Forall_forall _ _) Hin). }
  destruct (swap_positions_flat n self (get_pos p self) new_pos Hsq Hcur Hnewin)
    as (a' & v1 & v2 & Hv1 & Hv2 & Hswap & Hsq' & Hflat).
  exists (set_pos p (set_sbox self a') new_pos). split_and!.
  - unfold move_piece. rewrite Hmoves. cbn [bind]. unfold randint.
    destruct (Z.leb_spec (Z.of_nat (length moves)) 0); [lia|]. cbn [bind].
    rewrite Hnew. cbn [bind]. by rewrite Hswap.
  - by destruct p.
  - replace (sbox (set_pos p (set_sbox self a') new_pos)) with a' by (by destruct p).
    rewrite Hflat. by apply swap_Permutation.
Qed.

Lemma walk_loop_permutes (rand : nat -> Z -> Z) (n : Z) (count : nat)
  (self : ChessCrypt) (k : nat) :
  rand_valid rand -> board_inv n self ->
  exists self' k',
    repeat_m count (iteration rand) (self, k) = Ok (self', k') /\
    board_inv n self' /\
    flatten (sbox self') ≡ₚ flatten (sbox self).
Proof.
  intros Hrand. revert self k. induction count as [|count IH]; intros self k Hinv.
  - by exists self, k.
  - destruct (move_piece_permutes rand n Knight self k Hrand Hinv) as (s1 & E1 & I1 & P1).
    destruct (move_piece_permutes rand n King s1 (Datatypes.S k) Hrand I1)
      as (s2 & E2 & I2 & P2).
    destruct (move_piece_permutes rand n Bishop s2 (Datatypes.S (Datatypes.S k)) Hrand I2)
      as (s3 & E3 & I3 & P3).
    destruct (IH s3 (Datatypes.S (Datatypes.S (Datatypes.S k))) I3)
      as (self' & k' & R & I' & P').
    exists self', k'. split_and!; [|done|].
    + cbn [repeat_m]. unfold iteration at 1. rewrite E1. cbn [bind].
      rewrite E2. cbn [bind]. rewrite E3. cbn [bind]. exact R.
    + by rewrite P', P3, P2, P1.
Qed.

(** X15. A run only moves values around: started on any [n] by [n] table,
    with the three cursors on the board, [generate_sbox] returns, and the
    table it leaves holds the values the table held, each as often as
    before. *)
Theorem generate_sbox_permutes (rand : nat -> Z -> Z) (n : Z) (self : ChessCrypt)
  (iterations : Z) (k : nat) :
  rand_valid rand -> board_inv n self ->
  exists self' k',
    generate_sbox rand self iterations k = Ok (self', k') /\
    flatten (sbox self') ≡ₚ flatten (sbox self).
Proof.
  intros Hrand Hinv.
  destruct (walk_loop_permutes rand n (Z.to_nat iterations) self k Hrand Hinv)
    as (self' & k' & R & _ & P).
  by exists self', k'.
Qed.

Lemma generate_sbox_permutes_witness :
  exists self' k',
    generate_sbox (fun k high => Z.of_nat k mod high)
      {| box_size := 2; sbox := [[7; 7]; [-3; 100]];
         king_pos := (1, 0); knight_pos := (0, 0); bishop_pos := (1, 1) |} 50 0
    = Ok (self', k') /\
    flatten (sbox self') ≡ₚ flatten [[7; 7]; [-3; 100]].
Proof.
  apply (generate_sbox_permutes (fun k high => Z.of_nat k mod high) 2
           {| box_size := 2; sbox := [[7; 7]; [-3; 100]];
              king_pos := (1, 0); knight_pos := (0, 0); bishop_pos := (1, 1) |} 50 0).
  - exact rand_cycle_valid.
  - split; [reflexivity|]. split.
    + split; [reflexivity|]. repeat constructor.
    + repeat split; simpl; lia.
Defined.

(** X16. A run does not change the statistics: on any [n] by [n] table with
    the cursors on the board, [get_sbox_stats] returns the same entries
    after [generate_sbox] as before. *)
Theorem generate_sbox_keeps_stats (rand : nat -> Z -> Z) (n : Z) (self : ChessCrypt)
  (iterations : Z) (k : nat) :
  rand_valid rand -> board_inv n self ->
  exists self' k' st,
    generate_sbox rand self iterations k = Ok (self', k') /\
    get_sbox_stats self = Ok st /\
    get_sbox_stats self' = Ok st.
Proof.
  intros Hrand Hinv.
  destruct (walk_loop_permutes rand n (Z.to_nat iterations) self k Hrand Hinv)
    as (self' & k' & R & _ & P).
  assert (flatten (sbox self) <> []) as Hne.
  { destruct Hinv as (_ & Hsq & Hk & _).
    destruct (getitem2_flat n _ _ Hsq Hk) as (v & _ & Hv).
    intros Hnil. rewrite Hnil in Hv. done. }
  assert (flatten (sbox self') <> []) as Hne'.
  { intros Hnil. rewrite Hnil in P. symmetry in P.
    by apply Permutation_nil_r in P. }
  destruct (get_sbox_stats_nonempty self Hne) as (st & Hst & Hbij & Hmin & Hmax & Hbound).
  destruct (get_sbox_stats_nonempty self' Hne')
    as (st' & Hst' & Hbij' & Hmin' & Hmax' & Hbound').
  exists self', k', st. split_and!; try done.
  rewrite Hst'. f_equal.
  rewrite P in Hbij', Hmin', Hmax'.
  pose proof (Hbound _ Hmin') as H1. pose proof (Hbound _ Hmax') as H2.
  rewrite <- P in Hmin, Hmax.
  pose proof (Hbound' _ Hmin) as H3. pose proof (Hbound' _ Hmax) as H4.
  assert (is_bijective st' = is_bijective st) as Hb.
  { destruct (is_bijective st') eqn:E', (is_bijective st) eqn:E; try done;
      intuition congruence. }
  destruct st as [b lo hi], st' as [b' lo' hi']. simpl in *. f_equal; [done|lia|lia].
Qed.

Lemma generate_sbox_keeps_stats_witness :
  exists self' k' st,
    generate_sbox (fun k high => Z.of_nat k mod high)
      {| box_size := 2; sbox := [[7; 7]; [-3; 100]];
         king_pos := (1, 0); knight_pos := (0, 0); bishop_pos := (1, 1) |} 50 0
    = Ok (self', k') /\
    get_sbox_stats
      {| box_size := 2; sbox := [[7; 7]; [-3; 100]];
         king_pos := (1, 0); knight_pos := (0, 0); bishop_pos := (1, 1) |} = Ok st /\
    get_sbox_stats self' = Ok st.
Proof.
  apply (generate_sbox_keeps_stats (fun k high => Z.of_nat k mod high) 2
           {| box_size := 2; sbox := [[7; 7]; [-3; 100]];
              king_pos := (1, 0); knight_pos := (0, 0); bishop_pos := (1, 1) |} 50 0).
  - exact rand_cycle_valid.
  - split; [reflexivity|]. split.
    + split; [reflexivity|]. repeat constructor.
    + repeat split; simpl; lia.
Defined.
